(** * Static (server-side) rendering core of Solid: [static/rendering.ts]

    A shallow embedding of the hydration-context id scheme, the resource and
    lazy primitives, the Suspense boundary and the [awaitSuspense] driver,
    together with the properties of the specification that were checked
    against them. *)

From Stdlib Require Import String Ascii List Arith Lia Bool.
From Stdlib Require Import DecimalString DecimalNat DecimalFacts.
From stdpp Require Import base gmap strings list.

Set Default Proof Using "Type".
Local Open Scope string_scope.
Local Open Scope stdpp_scope.

(** ** Strings *)

Module Str.

Lemma app_cons a s t : String a s +:+ t = String a (s +:+ t).
Proof. reflexivity. Qed.

Lemma app_nil_l s : "" +:+ s = s.
Proof. reflexivity. Qed.

Lemma app_nil_r s : s +:+ "" = s.
Proof. induction s as [|a s IH]; [reflexivity|]. by rewrite app_cons, IH. Qed.

Lemma app_assoc s t u : (s +:+ t) +:+ u = s +:+ (t +:+ u).
Proof. induction s as [|a s IH]; [reflexivity|]. by rewrite !app_cons, IH. Qed.

Lemma length_app s t : String.length (s +:+ t) = String.length s + String.length t.
Proof. induction s as [|a s IH]; [reflexivity|]. rewrite app_cons. simpl. by rewrite IH. Qed.

(** [all p s]: every character of [s] satisfies [p]. *)
Fixpoint all (p : ascii → bool) (s : string) : bool :=
  match s with
  | EmptyString => true
  | String a s' => p a && all p s'
  end.

Lemma all_app p s t : all p (s +:+ t) = all p s && all p t.
Proof.
  induction s as [|a s IH]; [reflexivity|].
  rewrite app_cons. simpl. by rewrite IH, andb_assoc.
Qed.

(** [is_prefix s t]: [s] is a prefix of [t] ([t.startsWith(s)]). *)
Fixpoint is_prefix (s t : string) : bool :=
  match s, t with
  | EmptyString, _ => true
  | String a s', String b t' => if Ascii.eqb a b then is_prefix s' t' else false
  | String _ _, EmptyString => false
  end.

Lemma is_prefix_spec s t : is_prefix s t = true ↔ ∃ u, t = s +:+ u.
Proof.
  revert t. induction s as [|a s IH]; intros t; simpl.
  - split; [intros _; by exists t | done].
  - destruct t as [|b t].
    + split; [done | intros [u Hu]; discriminate Hu].
    + destruct (Ascii.eqb_spec a b) as [->|Hne].
      * rewrite IH. split; intros [u Hu]; exists u.
        -- by rewrite app_cons, Hu.
        -- rewrite app_cons in Hu. by injection Hu.
      * split; [done | intros [u Hu]]. rewrite app_cons in Hu.
        injection Hu as Hab _. by destruct Hne.
Qed.

Lemma is_prefix_app_same p s t :
  is_prefix (p +:+ s) (p +:+ t) = is_prefix s t.
Proof.
  induction p as [|a p IH]; [reflexivity|].
  rewrite !app_cons. simpl. by rewrite Ascii.eqb_refl.
Qed.

End Str.

(** ** Decimal rendering of a counter

    [`${n}`] and [id + n] print the counter in decimal.  Counters are
    non-negative integers that only ever grow by [++] from [0]; they are
    modelled as [nat]. *)

Definition is_digit (a : ascii) : bool :=
  match a with
  | "0" | "1" | "2" | "3" | "4" | "5" | "6" | "7" | "8" | "9" => true
  | _ => false
  end%char.

Definition dec (n : nat) : string := NilEmpty.string_of_uint (Nat.to_uint n).

Lemma string_of_uint_digits d : Str.all is_digit (NilEmpty.string_of_uint d) = true.
Proof. induction d; simpl; auto. Qed.

Lemma dec_digits n : Str.all is_digit (dec n) = true.
Proof. apply string_of_uint_digits. Qed.

Lemma dec_inj n m : dec n = dec m → n = m.
Proof.
  unfold dec. intros H.
  assert (Nat.to_uint n = Nat.to_uint m) as E.
  { apply (f_equal NilEmpty.uint_of_string) in H.
    rewrite !NilEmpty.usu in H. congruence. }
  apply (f_equal Nat.of_uint) in E. by rewrite !DecimalNat.Unsigned.of_to in E.
Qed.

Lemma dec_nonempty n : dec n ≠ "".
Proof.
  unfold dec. intros H.
  apply (f_equal NilEmpty.uint_of_string) in H. rewrite NilEmpty.usu in H.
  simpl in H. assert (Nat.to_uint n = Decimal.Nil) as E by congruence.
  apply (f_equal Nat.of_uint) in E. rewrite DecimalNat.Unsigned.of_to in E.
  simpl in E. subst n. discriminate.
Qed.

(** ** Rendered nodes

    [JSX.Element] as [resolveSSRNode] sees it.  A function node is a pure
    thunk here; an object node is represented by its [t] field
    ([JObj JNull] when the field is missing). *)

#[local] Set Warnings "-register-all".

Inductive JSX : Type :=
| JStr (s : string)
| JNull
| JBool (b : bool)
| JNum (n : nat)
| JArr (l : list JSX)
| JObj (t : JSX)
| JFun (f : unit → JSX).

Fixpoint resolveSSRNode (node : JSX) : string :=
  match node with
  | JStr s => s
  | JNull => ""
  | JBool _ => ""
  | JArr l => fold_right (λ n acc, resolveSSRNode n +:+ acc) "" l
  | JObj t => resolveSSRNode t
  | JFun f => resolveSSRNode (f tt)
  | JNum n => dec n
  end.

(** [if (value)] on a string or [undefined]. *)
Definition truthy_str (v : option string) : bool :=
  match v with
  | Some (String _ _) => true
  | _ => false
  end.

(** [typeof v === "object" || typeof v === "function"], with [v] not [null]:
    the values on which the [in] operator does not raise. *)
Definition is_object (v : JSX) : bool :=
  match v with
  | JArr _ | JObj _ | JFun _ => true
  | _ => false
  end.

(** ** Data model *)

(** [HydrationContext].  The [resources] and [suspense] records of a context
    are copied by reference when a context is spread, so every context of a
    render pass aliases the same two objects; they live in the world below. *)
Record HydrationContext : Type := mkContext {
  id : string;
  count : nat;
  writeResource : bool;
  async : bool;
  streaming : bool
}.

(** Modelled from the spec: the owner chain of the reactive module
    ([Owner], [lookup]), which this file only uses to propagate context.
    A frame carries what [Owner.context] holds for the two keys used here:
    the value of [SuspenseContext] and the presence of the driver's callback
    provider under [SUSPENSE_GLOBAL].  [[]] is the [null] owner. *)
Record Frame : Type := mkFrame {
  f_suspense : option string;
  f_global : bool
}.
Definition OwnerT : Type := list Frame.

(** The state closed over by the pair returned by [createResource]. *)
Record ResourceObj : Type := mkResource {
  r_id : string;
  r_value : JSX;
  r_contexts : list string;
  r_loading : bool
}.

(** The [then] callbacks of this file, as data. *)
Inductive Handler : Type :=
| HLoad (r : nat)        (* load: res => { ctx.resources[id] = res; ... } *)
| HLazySet (l : nat)     (* lazy: mod => (resolved = mod.default) *)
| HLazyDone (l : nat).   (* lazy wrapper: () => { for (const c of contexts) ... } *)

(** Ghost events, recorded to count invocations. *)
Inductive Event : Type :=
| EvDone (key : string) (value : option string)
| EvCompleted (key : string).

(** What a producer returns: a thenable or an immediate value. *)
Inductive Produced : Type :=
| PPromise (p : nat)
| PValue (v : JSX).

(** What [load] returns: the inert [{ then() {} }] or a promise. *)
Inductive Thenable : Type :=
| TNoop
| TPromise (p : nat).

(** ** The driver's token pattern and substitution loop *)

Definition is_idc (a : ascii) : bool := is_digit a || Ascii.eqb a ".".

(** The longest prefix of id characters, and what follows it. *)
Fixpoint span_id (s : string) : string * string :=
  match s with
  | String a s' =>
      if is_idc a then let '(i, r) := span_id s' in (String a i, r) else ("", s)
  | EmptyString => ("", "")
  end.

(** [strip p s]: [s] without its prefix [p], when it has this prefix. *)
Fixpoint strip (p s : string) : option string :=
  match p, s with
  | EmptyString, _ => Some s
  | String a p', String b s' => if Ascii.eqb a b then strip p' s' else None
  | String _ _, EmptyString => None
  end.

(** [SUSPENSE_REPLACE = /<#([0-9\.]+)\#>/] anchored at the start of [s]: the
    captured id and the text after the match. *)
Definition match_here (s : string) : option (string * string) :=
  match strip "<#" s with
  | Some s1 =>
      match span_id s1 with
      | (String a i, s2) =>
          match strip "#>" s2 with
          | Some r => Some (String a i, r)
          | None => None
          end
      | (EmptyString, _) => None
      end
  | None => None
  end.

(** [source.match(SUSPENSE_REPLACE)]: the leftmost match, as the text before
    it ([substring(0, match.index)]), the captured id ([match[1]]) and the
    text after it ([substring(match.index + match[0].length)]). *)
Fixpoint find_token (s : string) : option (string * string * string) :=
  match match_here s with
  | Some (i, r) => Some ("", i, r)
  | None =>
      match s with
      | String a s' =>
          match find_token s' with
          | Some (p, i, r) => Some (String a p, i, r)
          | None => None
          end
      | EmptyString => None
      end
  end.

(** [cache[key] + ...]: a missing entry is [undefined] and concatenates as
    the text "undefined". *)
Definition cached (cache : gmap string string) (key : string) : string :=
  match cache !! key with
  | Some v => v
  | None => "undefined"
  end.

(** The [while] loop of the driver; [fuel] bounds the number of times the
    body runs, [None] when it runs out. *)
Fixpoint subst_loop (fuel : nat) (cache : gmap string string)
    (final source : string) : option string :=
  match find_token source with
  | None => Some (final +:+ source)
  | Some (p, i, r) =>
      match fuel with
      | 0 => None
      | S fuel' => subst_loop fuel' cache (final +:+ p) (cached cache i +:+ r)
      end
  end.

(** The text a boundary emits while pending. *)
Definition token (key : string) : string := "<#" +:+ key +:+ "#>".

(** *** The expansion the specification describes

    [Expands cache s out]: [out] is [s] with each token, from left to right,
    replaced by the expansion of the fragment cached under its id. *)
Inductive Expands (cache : gmap string string) : string → string → Prop :=
| Expands_plain s :
    find_token s = None → Expands cache s s
| Expands_token s p i r f f' r' :
    find_token s = Some (p, i, r) →
    cache !! i = Some f →
    Expands cache f f' →
    Expands cache r r' →
    Expands cache s (p +:+ f' +:+ r').

(** [opener s]: [s] is the beginning of a token that is not finished yet:
    ["<"], ["<#"] followed by id characters, or that followed by ["#"]. *)
Definition opener (s : string) : bool :=
  match strip "<" s with
  | Some EmptyString => true
  | Some s1 =>
      match strip "#" s1 with
      | Some s2 =>
          match span_id s2 with
          | (_, EmptyString) => true
          | (String _ _, String "#" EmptyString) => true
          | _ => false
          end
      | None => false
      end
  | None => false
  end.

(** [closed s]: [s] does not end in an unfinished token. *)
Fixpoint closed (s : string) : bool :=
  match s with
  | EmptyString => true
  | String _ s' => negb (opener s) && closed s'
  end.

(** [Seamless cache s]: along the expansion of [s], no text before a token
    and no text without tokens ends in an unfinished token, so that joining
    the pieces neither creates nor destroys a token. *)
Inductive Seamless (cache : gmap string string) : string → Prop :=
| Seamless_plain s :
    find_token s = None → closed s = true → Seamless cache s
| Seamless_token s p i r f :
    find_token s = Some (p, i, r) →
    closed p = true →
    cache !! i = Some f →
    Seamless cache f →
    Seamless cache r →
    Seamless cache s.

(** Every token that starts somewhere in [s] has its id in the cache. *)
Fixpoint covered (cache : gmap string string) (s : string) : bool :=
  match s with
  | EmptyString => true
  | String _ s' =>
      match match_here s with
      | Some (i, _) => bool_decide (is_Some (cache !! i))
      | None => true
      end && covered cache s'
  end.

(** The number of ["<"] characters of a string. *)
Fixpoint angles (s : string) : nat :=
  match s with
  | EmptyString => 0
  | String a s' => (if Ascii.eqb a "<" then 1 else 0) + angles s'
  end.

(** Results of an effectful computation: a value, an exception, or fuel
    exhaustion (of the bounded models of loops below). *)
Inductive Outcome (A : Type) : Type :=
| Ok (a : A)
| Throw (e : string)
| OutOfFuel.
Arguments Ok {A} a.
Arguments Throw {A} e.
Arguments OutOfFuel {A}.

Section Rendering.

(** Code of the closures that are stored in objects and run later: the
    [children] getter of a boundary's props and the component a lazy module
    resolves to. *)
Context {K : Type}.

(** Props of [Suspense]. *)
Record SuspenseProps : Type := mkProps {
  fallback : string;
  children : K
}.

(** The environment of one [Suspense] invocation, closed over by its
    [runSuspense] and by the [completed] callback it may install: [ctx], the
    owner [o] and [props].  The remaining captured names, [value] and [done],
    are determined by the boundary's key [id]: [value] is [ctx.suspense[id]]
    and [done] is [getCallback(id)]. *)
Record Completed : Type := mkCompleted {
  c_ctx : nat;
  c_owner : OwnerT;
  c_props : SuspenseProps
}.

(** [SuspenseContextValue]; boundaries are referred to by the key under which
    [ctx.suspense] holds them. *)
Record SuspenseContextValue : Type := mkBoundary {
  completedCount : nat;
  resources : gset string;
  completed : Completed
}.

(** The state closed over by the wrapper returned by [lazy]. *)
Record LazyObj : Type := mkLazy {
  l_p : nat;
  l_contexts : list string;
  l_resolved : option K
}.

(** What a promise settles to: a value, or a module with a default export. *)
Inductive Settled : Type :=
| SVal (v : JSX)
| SMod (k : K).

Inductive PromiseState : Type :=
| Pending (hs : list Handler)
| Fulfilled (v : Settled).

Inductive Task : Type :=
| THandler (h : Handler) (v : Settled)
| TSubst.                (* the closure given to queueMicrotask *)

Record World : Type := mkWorld {
  (* heap of HydrationContext objects and sharedConfig.context *)
  w_ctxs : list HydrationContext;
  w_context : option nat;
  (* ctx.resources and ctx.suspense of the pass *)
  w_resources : gmap string JSX;
  w_suspense : gmap string SuspenseContextValue;
  (* the reactive module's Owner *)
  w_owner : OwnerT;
  (* objects allocated by createResource, lazy and by producers *)
  w_robjs : list ResourceObj;
  w_lazies : list LazyObj;
  w_promises : list PromiseState;
  w_written : list (string * nat);
  (* awaitSuspense: registry, cache, res, and the value given to resolve *)
  w_registry : gset string;
  w_cache : gmap string string;
  w_res : option JSX;
  w_outcome : option JSX;
  (* microtask queue, ghost trace *)
  w_tasks : list Task;
  w_trace : list Event
}.

(** ** The effect monad: state, exceptions, and fuel exhaustion *)

Definition M (A : Type) : Type := World → Outcome A * World.

Definition ret {A} (a : A) : M A := λ w, (Ok a, w).
Definition bind {A B} (m : M A) (k : A → M B) : M B := λ w,
  match m w with
  | (Ok a, w') => k a w'
  | (Throw e, w') => (Throw e, w')
  | (OutOfFuel, w') => (OutOfFuel, w')
  end.
Definition throw {A} (e : string) : M A := λ w, (Throw e, w).
Definition get : M World := λ w, (Ok w, w).
Definition modify (f : World → World) : M unit := λ w, (Ok tt, f w).

(** [try { m } finally { fin }] for a finaliser that cannot fail. *)
Definition finally {A} (m : M A) (fin : World → World) : M A := λ w,
  let '(r, w') := m w in (r, fin w').

Notation "'let*' x ':=' m 'in' k" := (bind m (λ x, k))
  (at level 10, x name, m at level 100, k at level 200).
Notation "'let*' ' p ':=' m 'in' k" := (bind m (λ x, match x with p => k end))
  (at level 10, p pattern, m at level 100, k at level 200).
Notation "m ';;' k" := (bind m (λ _, k))
  (at level 100, k at level 200, right associativity).

(** ** World updates *)

Definition set_ctxs v w := mkWorld v (w_context w) (w_resources w) (w_suspense w)
  (w_owner w) (w_robjs w) (w_lazies w) (w_promises w) (w_written w)
  (w_registry w) (w_cache w) (w_res w) (w_outcome w) (w_tasks w) (w_trace w).
Definition set_context v w := mkWorld (w_ctxs w) v (w_resources w) (w_suspense w)
  (w_owner w) (w_robjs w) (w_lazies w) (w_promises w) (w_written w)
  (w_registry w) (w_cache w) (w_res w) (w_outcome w) (w_tasks w) (w_trace w).
Definition set_resources v w := mkWorld (w_ctxs w) (w_context w) v (w_suspense w)
  (w_owner w) (w_robjs w) (w_lazies w) (w_promises w) (w_written w)
  (w_registry w) (w_cache w) (w_res w) (w_outcome w) (w_tasks w) (w_trace w).
Definition set_suspense v w := mkWorld (w_ctxs w) (w_context w) (w_resources w) v
  (w_owner w) (w_robjs w) (w_lazies w) (w_promises w) (w_written w)
  (w_registry w) (w_cache w) (w_res w) (w_outcome w) (w_tasks w) (w_trace w).
Definition set_owner v w := mkWorld (w_ctxs w) (w_context w) (w_resources w)
  (w_suspense w) v (w_robjs w) (w_lazies w) (w_promises w) (w_written w)
  (w_registry w) (w_cache w) (w_res w) (w_outcome w) (w_tasks w) (w_trace w).
Definition set_robjs v w := mkWorld (w_ctxs w) (w_context w) (w_resources w)
  (w_suspense w) (w_owner w) v (w_lazies w) (w_promises w) (w_written w)
  (w_registry w) (w_cache w) (w_res w) (w_outcome w) (w_tasks w) (w_trace w).
Definition set_lazies v w := mkWorld (w_ctxs w) (w_context w) (w_resources w)
  (w_suspense w) (w_owner w) (w_robjs w) v (w_promises w) (w_written w)
  (w_registry w) (w_cache w) (w_res w) (w_outcome w) (w_tasks w) (w_trace w).
Definition set_promises v w := mkWorld (w_ctxs w) (w_context w) (w_resources w)
  (w_suspense w) (w_owner w) (w_robjs w) (w_lazies w) v (w_written w)
  (w_registry w) (w_cache w) (w_res w) (w_outcome w) (w_tasks w) (w_trace w).
Definition set_written v w := mkWorld (w_ctxs w) (w_context w) (w_resources w)
  (w_suspense w) (w_owner w) (w_robjs w) (w_lazies w) (w_promises w) v
  (w_registry w) (w_cache w) (w_res w) (w_outcome w) (w_tasks w) (w_trace w).
Definition set_registry v w := mkWorld (w_ctxs w) (w_context w) (w_resources w)
  (w_suspense w) (w_owner w) (w_robjs w) (w_lazies w) (w_promises w) (w_written w)
  v (w_cache w) (w_res w) (w_outcome w) (w_tasks w) (w_trace w).
Definition set_cache v w := mkWorld (w_ctxs w) (w_context w) (w_resources w)
  (w_suspense w) (w_owner w) (w_robjs w) (w_lazies w) (w_promises w) (w_written w)
  (w_registry w) v (w_res w) (w_outcome w) (w_tasks w) (w_trace w).
Definition set_res v w := mkWorld (w_ctxs w) (w_context w) (w_resources w)
  (w_suspense w) (w_owner w) (w_robjs w) (w_lazies w) (w_promises w) (w_written w)
  (w_registry w) (w_cache w) v (w_outcome w) (w_tasks w) (w_trace w).
Definition set_outcome v w := mkWorld (w_ctxs w) (w_context w) (w_resources w)
  (w_suspense w) (w_owner w) (w_robjs w) (w_lazies w) (w_promises w) (w_written w)
  (w_registry w) (w_cache w) (w_res w) v (w_tasks w) (w_trace w).
Definition set_tasks v w := mkWorld (w_ctxs w) (w_context w) (w_resources w)
  (w_suspense w) (w_owner w) (w_robjs w) (w_lazies w) (w_promises w) (w_written w)
  (w_registry w) (w_cache w) (w_res w) (w_outcome w) v (w_trace w).
Definition set_trace v w := mkWorld (w_ctxs w) (w_context w) (w_resources w)
  (w_suspense w) (w_owner w) (w_robjs w) (w_lazies w) (w_promises w) (w_written w)
  (w_registry w) (w_cache w) (w_res w) (w_outcome w) (w_tasks w) v.

Definition log (e : Event) : M unit := modify (λ w, set_trace (w_trace w ++ [e]) w).

(** ** Hydration context *)

Definition setHydrateContext (context : option nat) : M unit :=
  modify (set_context context).

(** [sharedConfig.context!]: the active context object and its address;
    a property access on [undefined] raises. *)
Definition activeContext : M (nat * HydrationContext) := λ w,
  match w_context w with
  | Some c =>
      match w_ctxs w !! c with
      | Some ctx => (Ok (c, ctx), w)
      | None => (Throw "TypeError", w)
      end
  | None => (Throw "TypeError", w)
  end.

(** [ctx.count++] on the object at [c]; yields the old count. *)
Definition postIncrement (c : nat) : M nat := λ w,
  match w_ctxs w !! c with
  | Some ctx =>
      let ctx' := mkContext (id ctx) (S (count ctx)) (writeResource ctx)
                    (async ctx) (streaming ctx) in
      (Ok (count ctx), set_ctxs (<[c := ctx']> (w_ctxs w)) w)
  | None => (Throw "TypeError", w)
  end.

(** Allocation of a fresh context object. *)
Definition newContext (ctx : HydrationContext) : M nat := λ w,
  (Ok (length (w_ctxs w)), set_ctxs (w_ctxs w ++ [ctx]) w).

Definition nextHydrateContext : M (option nat) := λ w,
  match w_context w with
  | Some c =>
      (let* '(_, ctx) := activeContext in
       let* n := postIncrement c in
       let* child := newContext (mkContext (id ctx +:+ dec n +:+ ".") 0
                                   (writeResource ctx) (async ctx) (streaming ctx)) in
       ret (Some child)) w
  | None => (Ok None, w)
  end.

Definition createComponent (Comp : M JSX) : M JSX := λ w,
  match w_context w with
  | Some c =>
      (let* n := nextHydrateContext in
       setHydrateContext n;;
       let* r := Comp in
       setHydrateContext (Some c);;
       ret r) w
  | None => Comp w
  end.


(** ** The reactive module, as far as this file uses it *)

(** Modelled from the spec: [lookup(Owner, SuspenseContext.id)], the value of
    the nearest enclosing provider, which is what [useContext] returns. *)
Fixpoint useContext (o : OwnerT) : option string :=
  match o with
  | [] => None
  | f :: o' =>
      match f_suspense f with
      | Some b => Some b
      | None => useContext o'
      end
  end.

(** Modelled from the spec: [lookup(Owner, SUSPENSE_GLOBAL)] finds the
    driver's callback provider iff some enclosing owner carries it. *)
Definition lookupGlobal (o : OwnerT) : bool := existsb f_global o.

(** Modelled from the spec: a computation run under a fresh owner whose
    context is [f] ([createMemo] / [createRenderEffect] followed by the
    assignment to [Owner.context]); the previous owner is put back when the
    computation returns. *)
Definition withFrame {A} (f : Frame) (m : M A) : M A :=
  let* prev := (λ w, (Ok (w_owner w), w)) in
  modify (λ w, set_owner (f :: w_owner w) w);;
  let* v := m in
  modify (set_owner prev);;
  ret v.

(** Modelled from the spec: [runWithOwner(o, fn)] runs [fn] with [Owner]
    set to [o] and restores the previous owner on every exit. *)
Definition runWithOwner {A} (o : OwnerT) (m : M A) : M A := λ w,
  let prev := w_owner w in
  finally m (set_owner prev) (set_owner o w).

(** Modelled from the spec: [SuspenseContext.Provider]: renders its children
    under an owner whose context maps [SuspenseContext] to [value]. *)
Definition Provider (value : string) (children : M JSX) : M JSX :=
  withFrame (mkFrame (Some value) false) children.

(** ** Promises and the microtask queue *)

Definition enqueue (t : Task) : M unit :=
  modify (λ w, set_tasks (w_tasks w ++ [t]) w).

(** [p.then(h)] *)
Definition then_ (p : nat) (h : Handler) : M unit := λ w,
  match w_promises w !! p with
  | Some (Pending hs) =>
      (Ok tt, set_promises (<[p := Pending (hs ++ [h])]> (w_promises w)) w)
  | Some (Fulfilled v) => enqueue (THandler h v) w
  | None => (Throw "TypeError", w)
  end.

(** A fresh promise object. *)
Definition newPromise (st : PromiseState) : M nat := λ w,
  (Ok (length (w_promises w)), set_promises (w_promises w ++ [st]) w).

(** The environment fulfils a pending promise: its reactions are queued in
    the order in which they were attached. *)
Definition settle (p : nat) (v : Settled) (w : World) : World :=
  match w_promises w !! p with
  | Some (Pending hs) =>
      set_tasks (w_tasks w ++ map (λ h, THandler h v) hs)
        (set_promises (<[p := Fulfilled v]> (w_promises w)) w)
  | _ => w
  end.

(** ** The driver's callbacks *)

(** [resolve(v)] on the driver's promise: only the first call has an effect. *)
Definition resolve (v : JSX) : M unit :=
  modify (λ w, match w_outcome w with
               | None => set_outcome (Some v) w
               | Some _ => w
               end).

(** [getCallback(key)]: registers the key; the callback it returns is
    [done_ key]. *)
Definition getCallback (key : string) : M unit :=
  modify (λ w, set_registry ({[key]} ∪ w_registry w) w).

Definition done_ (key : string) (value : option string) : M unit :=
  log (EvDone key value);;
  (match value with
   | Some v =>
       if truthy_str value
       then modify (λ w, set_cache (<[key := v]> (w_cache w)) w)
       else ret tt
   | None => ret tt
   end);;
  modify (λ w, set_registry (w_registry w ∖ {[key]}) w);;
  let* w := get in
  if decide (size (w_registry w) = 0) then enqueue TSubst else ret tt.

(** The closure queued by [done_]. *)
Definition substitute (fuel : nat) : M unit :=
  let* w := get in
  match w_res w with
  | None => throw "ReferenceError"
  | Some res =>
      match subst_loop fuel (w_cache w) "" (resolveSSRNode res) with
      | Some out => resolve (JStr out)
      | None => λ w, (OutOfFuel, w)
      end
  end.

(** ** Components with stored code *)

Variable run : K → M JSX.

Definition getBoundary (b : string) : M SuspenseContextValue := λ w,
  match w_suspense w !! b with
  | Some v => (Ok v, w)
  | None => (Throw "TypeError", w)
  end.

Definition getContext (c : nat) : M HydrationContext := λ w,
  match w_ctxs w !! c with
  | Some ctx => (Ok ctx, w)
  | None => (Throw "TypeError", w)
  end.

(** [fulfilled v]: has the fan-in test [completedCount === resources.size]
    succeeded. *)
Definition fanin (v : SuspenseContextValue) : bool :=
  Nat.eqb (completedCount v) (size (resources v)).

Definition runSuspense (key : string) (cl : Completed) : M JSX :=
  let* ctx := getContext (c_ctx cl) in
  let* copy := newContext (mkContext (id ctx) 0 (writeResource ctx)
                             (async ctx) (streaming ctx)) in
  setHydrateContext (Some copy);;
  runWithOwner (c_owner cl)
    (createComponent (Provider key (run (children (c_props cl))))).

(** [value.completed()] for the boundary stored under [key]. *)
Definition completed_ (key : string) : M unit :=
  log (EvCompleted key);;
  let* v0 := getBoundary key in
  let* res := runSuspense key (completed v0) in
  let* v := getBoundary key in
  if fanin v then done_ key (Some (resolveSSRNode res)) else ret tt.

(** [if (++c.completedCount === c.resources.size) c.completed()] *)
Definition notify (c : string) : M unit :=
  let* v := getBoundary c in
  let v' := mkBoundary (S (completedCount v)) (resources v) (completed v) in
  modify (λ w, set_suspense (<[c := v']> (w_suspense w)) w);;
  if fanin v' then completed_ c else ret tt.

Fixpoint forEach {A} (l : list A) (f : A → M unit) : M unit :=
  match l with
  | [] => ret tt
  | x :: l' => f x;; forEach l' f
  end.

(** [ctx.resources.add(id); contexts.add(ctx)] on the boundary [b]. *)
Definition register (b : string) (rid : string) : M unit :=
  let* v := getBoundary b in
  let v' := mkBoundary (completedCount v) ({[rid]} ∪ resources v) (completed v) in
  modify (λ w, set_suspense (<[b := v']> (w_suspense w)) w).

Definition set_add (b : string) (l : list string) : list string :=
  if decide (b ∈ l) then l else l ++ [b].

(** ** createResource *)

Definition getResource (r : nat) : M ResourceObj := λ w,
  match w_robjs w !! r with
  | Some ro => (Ok ro, w)
  | None => (Throw "TypeError", w)
  end.

Definition putResource (r : nat) (ro : ResourceObj) : M unit :=
  modify (λ w, set_robjs (<[r := ro]> (w_robjs w)) w).

Definition createResource (value : JSX) : M nat :=
  let* '(c, ctx) := activeContext in
  let* n := postIncrement c in
  λ w, (Ok (length (w_robjs w)),
        set_robjs (w_robjs w ++ [mkResource (id ctx +:+ dec n) value [] false]) w).

Definition read (r : nat) : M JSX :=
  let* ro := getResource r in
  let* '(_, ctx) := activeContext in
  let* w := get in
  let resolved := async ctx && bool_decide (is_Some (w_resources w !! r_id ro)) in
  (if async ctx && negb resolved then
     match useContext (w_owner w) with
     | Some b =>
         register b (r_id ro);;
         putResource r (mkResource (r_id ro) (r_value ro)
                          (set_add b (r_contexts ro)) (r_loading ro))
     | None => ret tt
     end
   else ret tt);;
  if resolved
  then ret (default JNull (w_resources w !! r_id ro))
  else ret (r_value ro).

Definition load (r : nat) (fn : M Produced) : M Thenable :=
  let* '(_, ctx) := activeContext in
  if negb (async ctx) && negb (streaming ctx) then ret TNoop else
  let* ro := getResource r in
  let* w := get in
  match w_resources w !! r_id ro with
  | Some v =>
      putResource r (mkResource (r_id ro) v (r_contexts ro) (r_loading ro));;
      ret TNoop
  | None =>
      putResource r (mkResource (r_id ro) (r_value ro) (r_contexts ro) true);;
      let* p := fn in
      match p with
      | PPromise p =>
          if writeResource ctx
          then modify (λ w, set_written (w_written w ++ [(r_id ro, p)]) w);;
               ret (TPromise p)
          else then_ p (HLoad r);; ret (TPromise p)
      | PValue v =>
          if is_object v then
            let* ro' := getResource r in
            putResource r (mkResource (r_id ro') v (r_contexts ro') (r_loading ro'));;
            let* q := newPromise (Fulfilled (SVal v)) in
            ret (TPromise q)
          else throw "TypeError"
      end
  end.

(** The value a settled promise hands to a handler that expects data. *)
Definition settled_value (v : Settled) : JSX :=
  match v with
  | SVal v => v
  | SMod _ => JObj JNull
  end.

(** The handler attached by [load]. *)
Definition onLoad (r : nat) (res : JSX) : M unit :=
  let* ro := getResource r in
  modify (λ w, set_resources (<[r_id ro := res]> (w_resources w)) w);;
  forEach (r_contexts ro) notify;;
  let* ro' := getResource r in
  putResource r (mkResource (r_id ro') (r_value ro') [] (r_loading ro')).

(** ** lazy *)

Definition getLazy (l : nat) : M LazyObj := λ w,
  match w_lazies w !! l with
  | Some lo => (Ok lo, w)
  | None => (Throw "TypeError", w)
  end.

Definition putLazy (l : nat) (lo : LazyObj) : M unit :=
  modify (λ w, set_lazies (<[l := lo]> (w_lazies w)) w).

Definition lazy (fn : M nat) : M nat :=
  let* p := fn in
  let* l := (λ w, (Ok (length (w_lazies w)),
                   set_lazies (w_lazies w ++ [mkLazy p [] None]) w)) in
  then_ p (HLazySet l);;
  ret l.

(** The wrapper returned by [lazy], applied. *)
Definition lazyCall (l : nat) : M JSX :=
  let* '(c, ctx) := activeContext in
  let* n := postIncrement c in
  let rid := id ctx +:+ dec n in
  let* lo := getLazy l in
  match l_resolved lo with
  | Some k => run k
  | None =>
      let* w := get in
      (match useContext (w_owner w) with
       | Some b =>
           register b rid;;
           putLazy l (mkLazy (l_p lo) (set_add b (l_contexts lo)) (l_resolved lo))
       | None => ret tt
       end);;
      then_ (l_p lo) (HLazyDone l);;
      ret (JStr "")
  end.

Definition onLazySet (l : nat) (v : Settled) : M unit :=
  let* lo := getLazy l in
  match v with
  | SMod k => putLazy l (mkLazy (l_p lo) (l_contexts lo) (Some k))
  | SVal JNull => throw "TypeError"
  | SVal _ => putLazy l (mkLazy (l_p lo) (l_contexts lo) None)
  end.

Definition onLazyDone (l : nat) : M unit :=
  let* lo := getLazy l in
  forEach (l_contexts lo) notify;;
  let* lo' := getLazy l in
  putLazy l (mkLazy (l_p lo') [] (l_resolved lo')).

(** ** Suspense *)

(** [if (ctx.streaming) createComponent(() => props.children, {});] *)
Definition streamingPass (props : SuspenseProps) (ctx : HydrationContext) : M unit :=
  if streaming ctx then createComponent (run (children props));; ret tt else ret tt.

Definition Suspense (props : SuspenseProps) : M JSX :=
  let* '(c, ctx0) := activeContext in
  streamingPass props ctx0;;
  let* ctx := getContext c in
  if negb (async ctx) then ret (JStr (fallback props)) else
  let key := id ctx +:+ dec (count ctx) in
  let* w := get in
  (if lookupGlobal (w_owner w) then getCallback key else throw "TypeError");;
  let cl := mkCompleted c (w_owner w) props in
  (match w_suspense w !! key with
   | Some _ => ret tt
   | None => modify (λ w, set_suspense (<[key := mkBoundary 0 ∅ cl]> (w_suspense w)) w)
   end);;
  let* res := runSuspense key cl in
  let* v := getBoundary key in
  if fanin v then done_ key None;; ret res
  else
    let* '(_, cur) := activeContext in
    if async cur then ret (JObj (JStr (token key))) else ret (JStr (fallback props)).

(** ** awaitSuspense

    The executor of the promise returned by [awaitSuspense(fn)()]. *)
Definition awaitSuspense (fn : M JSX) : M unit :=
  modify (λ w, set_cache ∅ (set_registry ∅ (set_res None (set_outcome None w))));;
  let* res := withFrame (mkFrame None true) fn in
  modify (set_res (Some res));;
  let* w := get in
  if decide (size (w_registry w) = 0) then resolve res else ret tt.

(** ** The event loop *)

Definition runTask (fuel : nat) (t : Task) : M unit :=
  match t with
  | THandler (HLoad r) v => onLoad r (settled_value v)
  | THandler (HLazySet l) v => onLazySet l v
  | THandler (HLazyDone l) _ => onLazyDone l
  | TSubst => substitute fuel
  end.

(** Runs queued microtasks until the queue is empty; an exception raised by a
    task is not caught by anyone and the loop goes on. [None]: out of fuel. *)
Fixpoint drain (fuel : nat) (w : World) : option World :=
  match w_tasks w with
  | [] => Some w
  | t :: ts =>
      match fuel with
      | 0 => None
      | S fuel' =>
          match runTask fuel' t (set_tasks ts w) with
          | (OutOfFuel, _) => None
          | (_, w') => drain fuel' w'
          end
      end
  end.

End Rendering.

Arguments SuspenseProps K : clear implicits.
Arguments Completed K : clear implicits.
Arguments SuspenseContextValue K : clear implicits.
Arguments LazyObj K : clear implicits.
Arguments Settled K : clear implicits.
Arguments PromiseState K : clear implicits.
Arguments Task K : clear implicits.
Arguments World K : clear implicits.
Arguments M K A : clear implicits.

Notation "'let*' x ':=' m 'in' k" := (bind m (λ x, k))
  (at level 10, x name, m at level 100, k at level 200).
Notation "'let*' ' p ':=' m 'in' k" := (bind m (λ x, match x with p => k end))
  (at level 10, p pattern, m at level 100, k at level 200).
Notation "m ';;' k" := (bind m (λ _, k))
  (at level 100, k at level 200, right associativity).

(** ** Component programs

    Render functions built from the primitives above, used to run the
    library on concrete trees.  A [Code] is what a compiled component body
    does; [exec] gives its meaning in terms of the library. *)

Inductive Code : Type :=
| CText (s : string)                        (* a string *)
| CFrag (l : list Code)                     (* an array of children *)
| CComp (body : Code)                       (* createComponent(() => body, {}) *)
| CSuspense (fb : string) (ch : Code)       (* createComponent(Suspense, { fallback, get children() }) *)
| CData (p : nat)                            (* a component doing createResource, load(() => p), read() *)
| CWhen (p : nat) (body : Code)             (* the same, rendering body once the data is there *)
| CNow (v : JSX)                             (* a component doing createResource, load(() => v), read() *)
| CLazy (l : nat)                            (* createComponent(wrapper, {}) for the lazy object l *)
| CThrow (e : string).                       (* throw e *)

Definition isUndefined (v : JSX) : bool :=
  match v with
  | JNull => true
  | _ => false
  end.

Fixpoint exec (fuel : nat) (c : Code) : M Code JSX :=
  match fuel with
  | 0 => λ w, (OutOfFuel, w)
  | S fuel' =>
      match c with
      | CText s => ret (JStr s)
      | CFrag l =>
          let* vs :=
            (fix each (l : list Code) : M Code (list JSX) :=
               match l with
               | [] => ret []
               | c :: l' =>
                   let* v := exec fuel' c in
                   let* vs := each l' in
                   ret (v :: vs)
               end) l in
          ret (JArr vs)
      | CComp body => createComponent (exec fuel' body)
      | CSuspense fb ch => createComponent (Suspense (exec fuel') (mkProps fb ch))
      | CData p =>
          createComponent
            (let* r := createResource JNull in
             load r (ret (PPromise p));;
             read r)
      | CWhen p body =>
          createComponent
            (let* r := createResource JNull in
             load r (ret (PPromise p));;
             let* v := read r in
             if isUndefined v then ret (JStr "") else exec fuel' body)
      | CNow v =>
          createComponent
            (let* r := createResource JNull in
             load r (ret (PValue v));;
             read r)
      | CLazy l => createComponent (lazyCall (exec fuel') l)
      | CThrow e => throw e
      end
  end.

(** A world in which a render pass starts: a root context with empty id and
    the given mode, [n] pending promises, nothing else. *)
Definition initial (asyncMode streamingMode : bool) (n : nat) : World Code :=
  mkWorld [mkContext "" 0 false asyncMode streamingMode] (Some 0) ∅ ∅ []
    [] [] (replicate n (Pending [])) [] ∅ ∅ None None [] [].

(** A component that renders the id of the context it runs in, and [k]
    sibling invocations of it from one context. *)
Definition ownId {K} : M K JSX :=
  let* '(_, ctx) := activeContext in ret (JStr (id ctx)).

Fixpoint spawn {K} (k : nat) : M K (list JSX) :=
  match k with
  | 0 => ret []
  | S k' =>
      let* v := createComponent ownId in
      let* vs := spawn k' in
      ret (v :: vs)
  end.

(** The id of the [n]-th child of a context whose id is [p]. *)
Definition child_id (p : string) (n : nat) : string := p +:+ dec n +:+ ".".


(** ** List and conditional helpers *)

(** JavaScript truthiness of a rendered value used as a condition
    ([props.when]). *)
Definition truthy (v : JSX) : bool :=
  match v with
  | JStr EmptyString => false
  | JStr _ => true
  | JNull => false
  | JBool b => b
  | JNum 0 => false
  | JNum _ => true
  | JArr _ | JObj _ | JFun _ => true
  end.

(** [props.fallback || ""] *)
Definition orEmpty (fallback : option string) : JSX :=
  JStr (default "" fallback).

(** The [for] loop of [simpleMap], from index [i] on:
    [mapped += resolveSSRNode(wrap(fn, list[i], i))]. *)
Fixpoint mapLoop {K T} (wrap : T → nat → M K JSX) (i : nat) (list : list T)
    (mapped : string) : M K string :=
  match list with
  | [] => ret mapped
  | item :: rest =>
      let* v := wrap item i in
      mapLoop wrap (S i) rest (mapped +:+ resolveSSRNode v)
  end.

Definition simpleMap {K T} (each : list T) (fallback : option string)
    (wrap : T → nat → M K JSX) : M K JSX :=
  match each with
  | [] => ret (orEmpty fallback)
  | _ :: _ =>
      let* mapped := mapLoop wrap 0 each "" in
      ret (JObj (JStr mapped))
  end.

(** [For]: the children function gets the item and an index accessor. *)
Definition For {K T} (each : list T) (fallback : option string)
    (children : T → (unit → nat) → M K JSX) : M K JSX :=
  simpleMap each fallback (λ item i, children item (λ _, i)).

(** [Index]: the children function gets an item accessor and the index. *)
Definition Index {K T} (each : list T) (fallback : option string)
    (children : (unit → T) → nat → M K JSX) : M K JSX :=
  simpleMap each fallback (λ item i, children (λ _, item) i).

(** The [children] of [Show] and [Match]: a value or a function of the
    condition's value. *)
Inductive Branch (K : Type) : Type :=
| BValue (c : JSX)
| BFun (f : JSX → M K JSX).
Arguments BValue {K} c.
Arguments BFun {K} f.

(** [typeof c === "function" ? c(w) : c] *)
Definition branch {K} (c : Branch K) (w : JSX) : M K JSX :=
  match c with
  | BFun f => f w
  | BValue c => ret c
  end.

Definition Show {K} (when : JSX) (fallback : option string) (children : Branch K)
    : M K JSX :=
  if truthy when then branch children when else ret (orEmpty fallback).

Record MatchProps (K : Type) : Type := mkMatch {
  m_when : JSX;
  m_children : Branch K
}.
Arguments mkMatch {K} m_when m_children.
Arguments m_when {K} _.
Arguments m_children {K} _.

Definition Match {K} (props : MatchProps K) : MatchProps K := props.

(** The [children] of [Switch]: one condition or an array of them. *)
Inductive Conditions (K : Type) : Type :=
| OneCondition (m : MatchProps K)
| ManyConditions (l : list (MatchProps K)).
Arguments OneCondition {K} m.
Arguments ManyConditions {K} l.

(** The [for] loop of [Switch]. *)
Fixpoint switchLoop {K} (conditions : list (MatchProps K)) (fallback : option string)
    : M K JSX :=
  match conditions with
  | [] => ret (orEmpty fallback)
  | m :: rest =>
      if truthy (m_when m) then branch (m_children m) (m_when m)
      else switchLoop rest fallback
  end.

Definition Switch {K} (fallback : option string) (children : Conditions K)
    : M K JSX :=
  let conditions :=
    match children with
    | ManyConditions l => l
    | OneCondition m => [m]
    end in
  switchLoop conditions fallback.

(** ** Props utilities

    An object is the finite map from its own string keys to their property
    descriptors.  [proto] holds the names that every plain object inherits
    from [Object.prototype]: a lookup [descriptors[key]] of such a name is
    truthy even when the object has no own property of that name, and
    defining a property from the inherited value creates it with the default
    attributes [dflt].  Property definitions on existing keys are taken to be
    allowed (configurable properties). *)
Section Props.

Context {D : Type}.
Variable proto : gset string.
Variable dflt : D.

(** [Object.defineProperties(target, Object.getOwnPropertyDescriptors(source))],
    the properties of [target] after a call that accepts every descriptor;
    [definePropertiesOrThrow] below has the attributes and the [TypeError]. *)
Definition defineProperties (target source : gmap string D) : gmap string D :=
  source ∪ target.

Definition assignProps (target : gmap string D) (sources : list (gmap string D))
    : gmap string D :=
  fold_left defineProperties sources target.

(** The closure [split] of [splitProps], threading the shared [descriptors]
    object: returns the clone and what is left of the descriptors. *)
Fixpoint split (k : list string) (descriptors clone : gmap string D)
    : gmap string D * gmap string D :=
  match k with
  | [] => (clone, descriptors)
  | key :: k' =>
      match descriptors !! key with
      | Some d => split k' (delete key descriptors) (<[key := d]> clone)
      | None =>
          if decide (key ∈ proto) then
            match clone !! key with
            | Some _ => split k' descriptors clone
            | None => split k' descriptors (<[key := dflt]> clone)
            end
          else split k' descriptors clone
      end
  end.

(** [keys.map(split)] *)
Fixpoint splitGroups (keys : list (list string)) (descriptors : gmap string D)
    : list (gmap string D) * gmap string D :=
  match keys with
  | [] => ([], descriptors)
  | k :: keys' =>
      let '(clone, descriptors') := split k descriptors ∅ in
      let '(clones, rest) := splitGroups keys' descriptors' in
      (clone :: clones, rest)
  end.

Definition splitProps (props : gmap string D) (keys : list (list string))
    : list (gmap string D) :=
  let '(clones, descriptors) := splitGroups keys props in
  clones ++ [fst (split (elements (dom descriptors)) descriptors ∅)].

End Props.

(** ** Auxiliary definitions used in the statements below *)

(** The world in which a boundary renders its children for the first time:
    the key is in the driver's registry and [ctx.suspense] has an entry. *)
Definition entered {K} (key : string) (cl : Completed K) (w : World K) : World K :=
  let w1 := set_registry ({[key]} ∪ w_registry w) w in
  match w_suspense w !! key with
  | Some _ => w1
  | None => set_suspense (<[key := mkBoundary 0 ∅ cl]> (w_suspense w1)) w1
  end.

(** The last step of [Suspense], after the children have been rendered. *)
Definition settleBoundary {K} (props : SuspenseProps K) (key : string) (res : JSX)
    : M K JSX :=
  let* v := getBoundary key in
  if fanin v then done_ key None;; ret res
  else
    let* '(_, cur) := activeContext in
    if async cur then ret (JObj (JStr (token key))) else ret (JStr (fallback props)).

(** The driver's fresh promise, registry and cache. *)
Definition freshDriver {K} (w : World K) : World K :=
  set_cache ∅ (set_registry ∅ (set_res None (set_outcome None w))).

(** [++c.completedCount] *)
Definition bump {K} (v : SuspenseContextValue K) : SuspenseContextValue K :=
  mkBoundary (S (completedCount v)) (resources v) (completed v).

(** From [w] to [w'] no resource's [loading] flag went from [true] to
    [false]. *)
Definition loadingKept {K} (w w' : World K) : Prop :=
  ∀ i ro, w_robjs w !! i = Some ro → r_loading ro = true →
          ∃ ro', w_robjs w' !! i = Some ro' ∧ r_loading ro' = true.

Definition keepsLoading {K A} (m : M K A) : Prop :=
  ∀ w o w', m w = (o, w') → loadingKept w w'.

(** What [load] does once the flag is set. *)
Definition loadTail {K} (r : nat) (ctx : HydrationContext) (ro : ResourceObj)
    (fn : M K Produced) : M K Thenable :=
  let* p := fn in
  match p with
  | PPromise p =>
      if writeResource ctx
      then modify (λ w, set_written (w_written w ++ [(r_id ro, p)]) w);;
           ret (TPromise p)
      else then_ p (HLoad r);; ret (TPromise p)
  | PValue v =>
      if is_object v then
        let* ro' := getResource r in
        putResource r (mkResource (r_id ro') v (r_contexts ro') (r_loading ro'));;
        let* q := newPromise (Fulfilled (SVal v)) in
        ret (TPromise q)
      else throw "TypeError"
  end.

(** The texts of the items from index [i] on, joined. *)
Fixpoint joined {T} (g : T → nat → JSX) (i : nat) (list : list T) : string :=
  match list with
  | [] => ""
  | item :: rest => resolveSSRNode (g item i) +:+ joined g (S i) rest
  end.

(** A render pass under the driver: the owner carries the callback
    provider. *)
Definition underDriver (w : World Code) : World Code :=
  set_owner [mkFrame None true] w.

(** Two resources under one boundary, both pending. *)
Definition twoPending : World Code :=
  snd (awaitSuspense (exec 6 (CSuspense "wait" (CFrag [CData 0; CData 1])))
         (initial true false 2)).

(** The world in which [createComponent] calls the component, when the
    context at [c] is active: the parent's count is one higher, a child
    context has been allocated and the slot points to it. *)
Definition enterChild {K} (c : nat) (ctx : HydrationContext) (w : World K) : World K :=
  set_context (Some (length (w_ctxs w)))
    (set_ctxs (<[c := mkContext (id ctx) (S (count ctx)) (writeResource ctx)
                        (async ctx) (streaming ctx)]> (w_ctxs w)
               ++ [mkContext (child_id (id ctx) (count ctx)) 0 (writeResource ctx)
                     (async ctx) (streaming ctx)]) w).

(** The world in which [runSuspense] evaluates the children of the boundary
    [key], called in [w] when the boundary's context is [ctx]: a copy of
    [ctx] with count [0] is allocated and made active, the owner is the one
    the boundary was created under, [createComponent] enters a child of the
    copy, and the provider pushes the boundary as [SuspenseContext] value. *)
Definition enterBoundary {K} (key : string) (cl : Completed K) (ctx : HydrationContext)
    (w : World K) : World K :=
  let copy := mkContext (id ctx) 0 (writeResource ctx) (async ctx) (streaming ctx) in
  let w0 := set_owner (c_owner cl)
              (set_context (Some (length (w_ctxs w)))
                 (set_ctxs (w_ctxs w ++ [copy]) w)) in
  let w1 := enterChild (length (w_ctxs w)) copy w0 in
  set_owner (mkFrame (Some key) false :: w_owner w1) w1.

(** Two worlds that differ at most in [sharedConfig.context] and [Owner]. *)
Definition sameButSlots {K} (w w' : World K) : Prop :=
  w_ctxs w = w_ctxs w' ∧ w_resources w = w_resources w'
  ∧ w_suspense w = w_suspense w' ∧ w_robjs w = w_robjs w'
  ∧ w_lazies w = w_lazies w' ∧ w_promises w = w_promises w'
  ∧ w_written w = w_written w' ∧ w_registry w = w_registry w'
  ∧ w_cache w = w_cache w' ∧ w_res w = w_res w' ∧ w_outcome w = w_outcome w'
  ∧ w_tasks w = w_tasks w' ∧ w_trace w = w_trace w'.

(** ** Property attributes

    Descriptors as [Object.getOwnPropertyDescriptors] returns them, with every
    field present: a data property ([value], [writable]) or an accessor
    ([get], [set]), and the [enumerable] and [configurable] attributes.
    Objects are ordinary objects, given by their own properties; values are
    compared as [SameValue] compares them. *)
Inductive Slot (V : Type) : Type :=
| DataSlot (value : V) (writable : bool)
| AccessorSlot (getter setter : V).
Arguments DataSlot {V} value writable.
Arguments AccessorSlot {V} getter setter.

Record Descriptor (V : Type) : Type := mkDescriptor {
  d_slot : Slot V;
  d_enumerable : bool;
  d_configurable : bool
}.
Arguments mkDescriptor {V} d_slot d_enumerable d_configurable.
Arguments d_slot {V} _.
Arguments d_enumerable {V} _.
Arguments d_configurable {V} _.

Section Attributes.

Context {V : Type} `{EqDecision V}.

(** Whether [Object.defineProperty] accepts the descriptor [new] for a key
    whose current own property is [cur] ([None]: the object has no such
    property, and takes one only if it is extensible).  A configurable
    property can be redefined at will; a non-configurable one keeps its
    attributes and its kind, except that a writable data property may still
    change its value and become read-only. *)
Definition permitted (extensible : bool) (cur : option (Descriptor V))
    (new : Descriptor V) : bool :=
  match cur with
  | None => extensible
  | Some cur =>
      if d_configurable cur then true
      else
        negb (d_configurable new)
        && Bool.eqb (d_enumerable new) (d_enumerable cur)
        && match d_slot cur, d_slot new with
           | DataSlot v w, DataSlot v' w' => w || (negb w' && bool_decide (v = v'))
           | AccessorSlot g s, AccessorSlot g' s' =>
               bool_decide (g = g') && bool_decide (s = s')
           | _, _ => false
           end
  end.

(** [Object.defineProperties(target, Object.getOwnPropertyDescriptors(source))]
    with its error: [None] is the [TypeError] raised at the first key that is
    not accepted.  On success every key of [source] has the source's
    descriptor and the other keys of [target] are as they were. *)
Definition definePropertiesOrThrow (extensible : bool)
    (target source : gmap string (Descriptor V)) : option (gmap string (Descriptor V)) :=
  if decide (map_Forall (λ key new, permitted extensible (target !! key) new = true) source)
  then Some (source ∪ target)
  else None.

(** [assignProps(target, ...sources)], with the error of
    [Object.defineProperties]: the loop stops at the first source that is
    refused. *)
Fixpoint assignPropsOrThrow (extensible : bool) (target : gmap string (Descriptor V))
    (sources : list (gmap string (Descriptor V)))
    : option (gmap string (Descriptor V)) :=
  match sources with
  | [] => Some target
  | source :: rest =>
      match definePropertiesOrThrow extensible target source with
      | Some target' => assignPropsOrThrow extensible target' rest
      | None => None
      end
  end.

End Attributes.

(** A world in the middle of the first render of the boundary "0": one
    resource object and one lazy object exist, nothing has resolved. *)
Definition insideBoundary : World Code :=
  mkWorld [mkContext "0." 1 false true false] (Some 0) ∅
    {["0" := mkBoundary 0 ∅ (mkCompleted 0 [] (mkProps "wait" (CText "a")))]}
    [mkFrame (Some "0") false] [mkResource "0.0" JNull [] false]
    [mkLazy 0 [] None] [Pending []] [] ∅ ∅ None None [] [].

(** * Properties *)

(** ** Hierarchical ids *)

Section Ids.

Context {K : Type}.
Implicit Types (w : World K) (ctx : HydrationContext).

Lemma dot_not_digit : is_digit "." = false.
Proof. reflexivity. Qed.

(** A run of digits followed by a dot determines the digits. *)
Lemma digits_dot_prefix s t u :
  Str.all is_digit s = true → Str.all is_digit t = true →
  t +:+ "." = (s +:+ ".") +:+ u → s = t.
Proof.
  revert t. induction s as [|a s IH]; intros t Hs Ht E.
  - destruct t as [|b t]; [done|].
    simpl in Ht. apply andb_prop in Ht as [Hb _].
    rewrite !Str.app_cons in E. injection E as E _.
    rewrite E in Hb. discriminate Hb.
  - simpl in Hs. apply andb_prop in Hs as [Ha Hs].
    destruct t as [|b t].
    + rewrite !Str.app_cons in E. injection E as E _.
      rewrite <- E in Ha. discriminate Ha.
    + rewrite !Str.app_cons in E. injection E as -> E.
      simpl in Ht. apply andb_prop in Ht as [_ Ht].
      f_equal. by apply IH.
Qed.

Lemma child_id_prefix p i j :
  Str.is_prefix (child_id p i) (child_id p j) = true → i = j.
Proof.
  unfold child_id. rewrite Str.is_prefix_app_same.
  intros [u Hu]%Str.is_prefix_spec.
  apply dec_inj. eapply digits_dot_prefix; eauto using dec_digits.
Qed.

Lemma child_id_inj p i j : child_id p i = child_id p j → i = j.
Proof.
  intros E. apply (child_id_prefix p). rewrite E.
  apply Str.is_prefix_spec. exists "". by rewrite Str.app_nil_r.
Qed.

Lemma nextHydrateContext_Some w c ctx :
  w_context w = Some c → w_ctxs w !! c = Some ctx →
  nextHydrateContext w =
    (Ok (Some (length (w_ctxs w))),
     set_ctxs (<[c := mkContext (id ctx) (S (count ctx)) (writeResource ctx)
                        (async ctx) (streaming ctx)]> (w_ctxs w)
               ++ [mkContext (child_id (id ctx) (count ctx)) 0 (writeResource ctx)
                     (async ctx) (streaming ctx)]) w).
Proof.
  intros Hc Hctx. unfold nextHydrateContext, bind, activeContext, postIncrement,
    newContext, ret. rewrite Hc, Hctx. simpl. rewrite Hctx. simpl.
  by rewrite length_insert.
Qed.

Lemma createComponent_ownId w c ctx :
  w_context w = Some c → w_ctxs w !! c = Some ctx →
  createComponent ownId w =
    (Ok (JStr (child_id (id ctx) (count ctx))),
     set_ctxs (<[c := mkContext (id ctx) (S (count ctx)) (writeResource ctx)
                        (async ctx) (streaming ctx)]> (w_ctxs w)
               ++ [mkContext (child_id (id ctx) (count ctx)) 0 (writeResource ctx)
                     (async ctx) (streaming ctx)]) w).
Proof.
  intros Hc Hctx. unfold createComponent. rewrite Hc. unfold bind at 1.
  rewrite (nextHydrateContext_Some w c ctx Hc Hctx).
  unfold bind, setHydrateContext, modify, ownId, bind, activeContext, ret. simpl.
  rewrite lookup_app_r by (rewrite length_insert; lia).
  rewrite length_insert, Nat.sub_diag. simpl.
  destruct w; simpl in *. by rewrite Hc.
Qed.

Lemma spawn_ids k : ∀ w c ctx,
  w_context w = Some c → w_ctxs w !! c = Some ctx →
  ∃ w', spawn k w = (Ok (map (λ i, JStr (child_id (id ctx) (count ctx + i))) (seq 0 k)), w')
        ∧ w_context w' = Some c
        ∧ w_ctxs w' !! c = Some (mkContext (id ctx) (count ctx + k) (writeResource ctx)
                                   (async ctx) (streaming ctx)).
Proof.
  induction k as [|k IH]; intros w c ctx Hc Hctx.
  - exists w. simpl. rewrite Nat.add_0_r. by destruct ctx.
  - simpl. unfold bind at 1. rewrite (createComponent_ownId w c ctx Hc Hctx).
    set (w1 := set_ctxs _ w).
    assert (w_context w1 = Some c) as Hc1 by done.
    assert (w_ctxs w1 !! c = Some (mkContext (id ctx) (S (count ctx)) (writeResource ctx)
                                     (async ctx) (streaming ctx))) as Hctx1.
    { subst w1. simpl. apply lookup_lt_Some in Hctx as Hlt.
      rewrite lookup_app_l by (rewrite length_insert; lia).
      by apply list_lookup_insert_eq. }
    destruct (IH w1 c _ Hc1 Hctx1) as (w' & Hrun & Hc' & Hctx').
    exists w'. unfold bind. rewrite Hrun. simpl in *.
    split; [|split; [done|]].
    + unfold ret. rewrite Nat.add_0_r. do 3 f_equal.
      rewrite <- seq_shift, map_map. apply map_ext. intros i.
      by rewrite Nat.add_succ_r.
    + rewrite Hctx'. by rewrite Nat.add_succ_r.
Qed.

(** C3. A child context gets the id [parent.id + parent.count + "."] and
    count [0], and the parent's count goes up by one; [k] sibling components
    spawned in a row from one context therefore run under the ids built from
    the successive counts, and two siblings never get equal ids nor ids of
    which one is a prefix of the other. *)
Theorem child_context_ids (w : World K) (c : nat) (ctx : HydrationContext) (k : nat) :
  w_context w = Some c → w_ctxs w !! c = Some ctx →
  (∃ w',
     nextHydrateContext w = (Ok (Some (length (w_ctxs w))), w')
     ∧ w_ctxs w' !! length (w_ctxs w)
       = Some (mkContext (id ctx +:+ dec (count ctx) +:+ ".") 0
                 (writeResource ctx) (async ctx) (streaming ctx))
     ∧ w_ctxs w' !! c
       = Some (mkContext (id ctx) (S (count ctx))
                 (writeResource ctx) (async ctx) (streaming ctx)))
  ∧ (∃ w',
       spawn k w
       = (Ok (map (λ i, JStr (child_id (id ctx) (count ctx + i))) (seq 0 k)), w')
       ∧ w_context w' = Some c
       ∧ (count <$> w_ctxs w' !! c) = Some (count ctx + k))
  ∧ (∀ i j, i ≠ j →
       child_id (id ctx) i ≠ child_id (id ctx) j
       ∧ Str.is_prefix (child_id (id ctx) i) (child_id (id ctx) j) = false
       ∧ Str.is_prefix (child_id (id ctx) j) (child_id (id ctx) i) = false).
Proof.
  intros Hc Hctx. apply lookup_lt_Some in Hctx as Hlt. split; [|split].
  - eexists. split; [by apply nextHydrateContext_Some|]. simpl. split.
    + rewrite lookup_app_r by (rewrite length_insert; lia).
      by rewrite length_insert, Nat.sub_diag.
    + rewrite lookup_app_l by (rewrite length_insert; lia).
      by apply list_lookup_insert_eq.
  - destruct (spawn_ids k w c ctx Hc Hctx) as (w' & Hrun & Hc' & Hctx').
    exists w'. split; [done|]. split; [done|]. by rewrite Hctx'.
  - intros i j Hij. split; [|split].
    + intros E. by apply child_id_inj in E.
    + apply not_true_is_false. intros E. by apply child_id_prefix in E.
    + apply not_true_is_false. intros E. by apply child_id_prefix in E.
Qed.

End Ids.

Lemma child_context_ids_witness :
  w_context (initial true false 0) = Some 0
  ∧ ∃ w', spawn 3 (initial true false 0)
          = (Ok [JStr "0."; JStr "1."; JStr "2."], w').
Proof.
  split; [reflexivity|].
  destruct (child_context_ids (initial true false 0) 0
              (mkContext "" 0 false true false) 3 eq_refl eq_refl)
    as (_ & (w' & Hrun & _) & _).
  exists w'. exact Hrun.
Defined.

(** ** The active-context slot around a component invocation *)

Section ActiveContext.

Context {K : Type}.
Implicit Types (w : World K) (Comp : M K JSX).

(** What [createComponent] does when a context is active: the component runs
    in the world where the slot holds the fresh child context. *)
Lemma createComponent_active w c ctx Comp :
  w_context w = Some c → w_ctxs w !! c = Some ctx →
  ∃ w1, w_context w1 = Some (length (w_ctxs w))
        ∧ createComponent Comp w =
            match Comp w1 with
            | (Ok r, w2) => (Ok r, set_context (Some c) w2)
            | (Throw e, w2) => (Throw e, w2)
            | (OutOfFuel, w2) => (OutOfFuel, w2)
            end.
Proof.
  intros Hc Hctx. unfold createComponent. rewrite Hc. unfold bind at 1.
  rewrite (nextHydrateContext_Some w c ctx Hc Hctx).
  unfold bind, setHydrateContext, modify, ret. simpl.
  eexists. split; [|reflexivity]. reflexivity.
Qed.

Lemma createComponent_active_eq w c ctx Comp :
  w_context w = Some c → w_ctxs w !! c = Some ctx →
  createComponent Comp w =
    match Comp (enterChild c ctx w) with
    | (Ok r, w2) => (Ok r, set_context (Some c) w2)
    | (Throw e, w2) => (Throw e, w2)
    | (OutOfFuel, w2) => (OutOfFuel, w2)
    end.
Proof.
  intros Hc Hctx. unfold createComponent. rewrite Hc. unfold bind at 1.
  rewrite (nextHydrateContext_Some w c ctx Hc Hctx).
  unfold bind, setHydrateContext, modify, ret. simpl. reflexivity.
Qed.


End ActiveContext.


(** ** The token pattern *)

Section Tokens.

Implicit Types (s t p r i : string) (cache : gmap string string).

Lemma strip_spec p s r : strip p s = Some r ↔ s = p +:+ r.
Proof.
  revert s. induction p as [|a p IH]; intros s; simpl.
  - split; [by intros [= ->] | by intros ->].
  - destruct s as [|b s]; [split; [done | intros E; discriminate E]|].
    rewrite Str.app_cons. destruct (Ascii.eqb_spec a b) as [->|Hne].
    + rewrite IH. split; [by intros -> | by intros [= ->]].
    + split; [done | intros [= E _]; by destruct Hne].
Qed.

Lemma strip_app p r : strip p (p +:+ r) = Some r.
Proof. by apply strip_spec. Qed.

Lemma span_id_spec s i r :
  span_id s = (i, r) →
  s = i +:+ r ∧ Str.all is_idc i = true
  ∧ match r with String a _ => is_idc a = false | EmptyString => True end.
Proof.
  revert i r. induction s as [|a s IH]; intros i r; simpl.
  - by intros [= <- <-].
  - destruct (is_idc a) eqn:Ha.
    + destruct (span_id s) as [i' r'] eqn:E. intros [= <- <-].
      destruct (IH _ _ eq_refl) as (-> & Hall & Hr).
      rewrite Str.app_cons. simpl. by rewrite Ha, Hall.
    + intros [= <- <-]. by rewrite Str.app_nil_l.
Qed.

Lemma span_id_app i r :
  Str.all is_idc i = true →
  match r with String a _ => is_idc a = false | EmptyString => True end →
  span_id (i +:+ r) = (i, r).
Proof.
  intros Hi Hr. induction i as [|a i IH].
  - rewrite Str.app_nil_l. destruct r as [|b r]; [done|]. simpl. by rewrite Hr.
  - simpl in Hi. apply andb_prop in Hi as [Ha Hi].
    rewrite Str.app_cons. simpl. by rewrite Ha, (IH Hi).
Qed.

Lemma span_id_all i : Str.all is_idc i = true → span_id i = (i, "").
Proof.
  intros Hi. pose proof (span_id_app i "" Hi I) as H.
  by rewrite Str.app_nil_r in H.
Qed.

(** The anchored pattern accepts exactly ["<#"], a non-empty id of digits and
    dots, and ["#>"]. *)
Lemma match_here_spec s i r :
  match_here s = Some (i, r) ↔
  i ≠ "" ∧ Str.all is_idc i = true ∧ s = token i +:+ r.
Proof.
  unfold match_here, token. split.
  - destruct (strip "<#" s) as [s1|] eqn:E1; [|done].
    apply strip_spec in E1 as ->.
    destruct (span_id s1) as [[|a j] s2] eqn:E2; [done|].
    destruct (strip "#>" s2) as [r'|] eqn:E3; [|done].
    apply strip_spec in E3 as ->. intros [= <- <-].
    apply span_id_spec in E2 as (-> & Hall & _).
    split; [done|]. split; [done|]. by rewrite !Str.app_assoc.
  - intros (Hi & Hall & ->). rewrite !Str.app_assoc, strip_app.
    rewrite (span_id_app i ("#>" +:+ r)) by done.
    destruct i as [|a i]; [done|]. by rewrite strip_app.
Qed.

Lemma match_here_app s t i r :
  match_here s = Some (i, r) → match_here (s +:+ t) = Some (i, r +:+ t).
Proof.
  rewrite !match_here_spec. intros (? & ? & ->).
  by rewrite Str.app_assoc.
Qed.

Lemma find_token_cons a s :
  find_token (String a s) =
    match match_here (String a s) with
    | Some (i, r) => Some ("", i, r)
    | None =>
        match find_token s with
        | Some (p, i, r) => Some (String a p, i, r)
        | None => None
        end
    end.
Proof. reflexivity. Qed.

Lemma find_token_nil : find_token "" = None.
Proof. reflexivity. Qed.

(** What the matcher returns is a decomposition of the string around a
    well-formed token. *)
Lemma find_token_sound s p i r :
  find_token s = Some (p, i, r) →
  s = p +:+ token i +:+ r ∧ i ≠ "" ∧ Str.all is_idc i = true.
Proof.
  revert p. induction s as [|a s IH]; intros p; [done|].
  rewrite find_token_cons.
  destruct (match_here (String a s)) as [[i' r']|] eqn:E.
  - intros [= <- <- <-]. apply match_here_spec in E as (? & ? & ->). done.
  - destruct (find_token s) as [[[p' i'] r']|]; [|done].
    intros [= <- <- <-]. destruct (IH p' eq_refl) as (-> & ? & ?).
    by rewrite Str.app_cons.
Qed.

(** A token at the very start of the string is the leftmost match. *)
Lemma find_token_token i r :
  i ≠ "" → Str.all is_idc i = true →
  find_token (token i +:+ r) = Some ("", i, r).
Proof.
  intros Hi Hall.
  assert (match_here (token i +:+ r) = Some (i, r)) as E by by apply match_here_spec.
  destruct (token i +:+ r) as [|a s] eqn:Es.
  - discriminate E.
  - by rewrite find_token_cons, E.
Qed.


Lemma app_eq_app s1 s2 t1 t2 :
  s1 +:+ s2 = t1 +:+ t2 →
  (∃ x, s1 = t1 +:+ x ∧ t2 = x +:+ s2)
  ∨ (∃ x, x ≠ "" ∧ t1 = s1 +:+ x ∧ s2 = x +:+ t2).
Proof.
  revert t1. induction s1 as [|a s1 IH]; intros t1 E.
  - rewrite Str.app_nil_l in E. subst s2. destruct t1 as [|b t1].
    + left. by exists "".
    + right. by exists (String b t1).
  - destruct t1 as [|b t1].
    + left. exists (String a s1). by rewrite E.
    + rewrite !Str.app_cons in E. injection E as -> E.
      destruct (IH _ E) as [(x & -> & ->)|(x & Hx & -> & ->)].
      * left. by exists x.
      * right. by exists x.
Qed.

Lemma app_eq_nil s t : s +:+ t = "" → s = "" ∧ t = "".
Proof. destruct s as [|a s]; [by rewrite Str.app_nil_l|discriminate]. Qed.

Lemma all_app_l q s t : Str.all q (s +:+ t) = true → Str.all q s = true.
Proof. rewrite Str.all_app. by intros [? _]%andb_prop. Qed.

(** The unfinished tokens are the non-empty proper prefixes of tokens. *)
Lemma opener_spec s :
  opener s = true ↔
  s ≠ "" ∧ ∃ i x, i ≠ "" ∧ Str.all is_idc i = true ∧ x ≠ "" ∧ s +:+ x = token i.
Proof.
  unfold opener, token. split.
  - destruct (strip "<" s) as [s1|] eqn:E1; [|done].
    apply strip_spec in E1 as ->. split; [done|].
    destruct s1 as [|b s1]; [by exists "0", "#0#>"|].
    destruct (strip "#" (String b s1)) as [s2|] eqn:E2; [|done].
    apply strip_spec in E2 as ->.
    destruct (span_id s2) as [j r'] eqn:E3.
    apply span_id_spec in E3 as (-> & Hall & _).
    destruct r' as [|c r'].
    + rewrite Str.app_nil_r. destruct j as [|d j].
      * by exists "0", "0#>".
      * exists (String d j), "#>". by rewrite !Str.app_assoc.
    + destruct j as [|d j]; [done|]. destruct c as [[] [] [] [] [] [] [] []]; try done.
      destruct r'; [|done]. exists (String d j), ">".
      by rewrite !Str.app_assoc.
  - intros (Hs & i & x & Hi & Hall & Hx & E).
    destruct s as [|a s]; [done|]. rewrite Str.app_cons in E.
    injection E as -> E. simpl.
    destruct s as [|b s]; [done|]. rewrite Str.app_cons in E.
    injection E as -> E. simpl.
    apply (app_eq_app s x i "#>") in E as [(w & -> & E)|(w & Hw & -> & E)].
    + destruct w as [|c w].
      * rewrite Str.app_nil_r, (span_id_all i) by done. by destruct i.
      * injection E as <- E. destruct w as [|c w].
        -- rewrite (span_id_app i "#") by done. by destruct i.
        -- injection E as <- E. symmetry in E.
           apply app_eq_nil in E as [_ ->]. done.
    + rewrite (span_id_all s) by (by eapply all_app_l). by destruct s.
Qed.

Lemma opener_prefix s t : opener (s +:+ t) = true → s ≠ "" → opener s = true.
Proof.
  rewrite !opener_spec. intros (_ & i & x & Hi & Hall & Hx & E) Hs.
  split; [done|]. exists i, (t +:+ x). split; [done|]. split; [done|].
  split; [|by rewrite <- Str.app_assoc].
  intros [_ ->]%app_eq_nil. done.
Qed.

(** A match found at the start of [s +:+ t] lies within [s], unless [s] ends
    (and here: is) an unfinished token. *)
Lemma match_here_app_inv s t i r :
  match_here (s +:+ t) = Some (i, r) → s ≠ "" →
  (∃ r0, match_here s = Some (i, r0) ∧ r = r0 +:+ t) ∨ opener s = true.
Proof.
  intros (Hi & Hall & E)%match_here_spec Hs.
  apply (app_eq_app s t (token i) r) in E as [(x & -> & ->)|(x & Hx & E & ->)].
  - left. exists x. split; [|done]. by apply match_here_spec.
  - right. apply opener_spec. split; [done|]. by exists i, x.
Qed.

Lemma angles_app s t : angles (s +:+ t) = angles s + angles t.
Proof.
  induction s as [|a s IH]; [done|]. rewrite Str.app_cons. simpl. rewrite IH. lia.
Qed.

Lemma angles_idc i : Str.all is_idc i = true → angles i = 0.
Proof.
  induction i as [|a i IH]; [done|]. simpl. intros [Ha Hi]%andb_prop.
  rewrite (IH Hi). destruct (Ascii.eqb_spec a "<") as [->|]; [discriminate Ha|done].
Qed.

Lemma angles_token i : Str.all is_idc i = true → angles (token i) = 1.
Proof.
  intros Hi. unfold token. rewrite !angles_app, (angles_idc i Hi). reflexivity.
Qed.

Lemma find_token_angles s p i r :
  find_token s = Some (p, i, r) → angles s = angles p + 1 + angles r.
Proof.
  intros (-> & _ & Hall)%find_token_sound.
  rewrite !angles_app, (angles_token i Hall). lia.
Qed.

Lemma find_token_no_angle s : angles s = 0 → find_token s = None.
Proof.
  intros Hs. destruct (find_token s) as [[[p i] r]|] eqn:E; [|done].
  apply find_token_angles in E. lia.
Qed.

Lemma opener_tail a s : opener (String a s) = true → angles s = 0.
Proof.
  intros (_ & i & x & _ & Hall & _ & E)%opener_spec.
  unfold token in E. rewrite !Str.app_cons in E. injection E as _ E.
  apply (f_equal angles) in E. simpl in E.
  rewrite !angles_app, (angles_idc i Hall) in E. simpl in E. lia.
Qed.

(** Text appended after a string that contains a token does not change the
    leftmost match. *)
Lemma find_token_app_Some s t p i r :
  find_token s = Some (p, i, r) →
  find_token (s +:+ t) = Some (p, i, r +:+ t).
Proof.
  revert p. induction s as [|a s IH]; intros p; [done|].
  rewrite Str.app_cons, !find_token_cons, <- Str.app_cons.
  destruct (match_here (String a s)) as [[i' r']|] eqn:E.
  - intros [= <- <- <-]. by rewrite (match_here_app _ t _ _ E).
  - destruct (find_token s) as [[[p' i'] r']|] eqn:E'; [|done].
    intros [= <- <- <-].
    destruct (match_here (String a s +:+ t)) as [[i0 r0]|] eqn:E0.
    + apply match_here_app_inv in E0 as [(r1 & E1 & _)|Hop]; [congruence| |done].
      apply opener_tail, find_token_no_angle in Hop. congruence.
    + by rewrite (IH p' eq_refl).
Qed.

(** Text appended after a closed string without tokens: the leftmost match
    is that of the appended text. *)
Lemma find_token_app_None s t :
  find_token s = None → closed s = true →
  find_token (s +:+ t) =
    match find_token t with
    | Some (p, i, r) => Some (s +:+ p, i, r)
    | None => None
    end.
Proof.
  induction s as [|a s IH]; intros Hs Hc.
  - rewrite Str.app_nil_l. by destruct (find_token t) as [[[p i] r]|].
  - rewrite find_token_cons in Hs.
    destruct (match_here (String a s)) as [[i' r']|] eqn:E; [done|].
    destruct (find_token s) as [[[p' i'] r']|] eqn:E'; [done|].
    simpl in Hc. apply andb_prop in Hc as [Hop Hc]. apply negb_true_iff in Hop.
    rewrite Str.app_cons, find_token_cons, <- Str.app_cons.
    destruct (match_here (String a s +:+ t)) as [[i0 r0]|] eqn:E0.
    + apply match_here_app_inv in E0 as [(r1 & E1 & _)|Hop']; [congruence| |done].
      congruence.
    + rewrite (IH eq_refl Hc). by destruct (find_token t) as [[[p i] r]|].
Qed.

Lemma closed_app s t : closed s = true → closed t = true → closed (s +:+ t) = true.
Proof.
  induction s as [|a s IH]; intros Hs Ht; [done|].
  simpl in Hs. apply andb_prop in Hs as [Hop Hs]. apply negb_true_iff in Hop.
  rewrite Str.app_cons. simpl. rewrite (IH Hs Ht), andb_true_r.
  apply negb_true_iff, not_true_is_false. intros Hop'.
  rewrite <- Str.app_cons in Hop'. apply opener_prefix in Hop'; [|done].
  congruence.
Qed.

(** The text before the leftmost match contains no token. *)
Lemma find_token_before s p i r :
  find_token s = Some (p, i, r) → find_token p = None.
Proof.
  revert p. induction s as [|a s IH]; intros p; [done|].
  rewrite find_token_cons.
  destruct (match_here (String a s)) as [[i' r']|] eqn:E.
  - by intros [= <- <- <-].
  - destruct (find_token s) as [[[p' i'] r']|] eqn:E'; [|done].
    intros [= <- <- <-]. rewrite find_token_cons, (IH p' eq_refl).
    destruct (match_here (String a p')) as [[i0 r0]|] eqn:E0; [|done].
    apply find_token_sound in E' as (-> & _).
    apply (match_here_app _ (token i' +:+ r')) in E0.
    rewrite <- Str.app_cons in E. congruence.
Qed.

End Tokens.

(** ** The substitution pass *)

Section Substitution.

Implicit Types (s t p r i final source : string) (cache : gmap string string).

Lemma subst_loop_step cache fuel final source p i r :
  find_token source = Some (p, i, r) →
  subst_loop (S fuel) cache final source
  = subst_loop fuel cache (final +:+ p) (cached cache i +:+ r).
Proof. intros E. simpl. by rewrite E. Qed.

Lemma subst_loop_done cache fuel final source :
  find_token source = None →
  subst_loop fuel cache final source = Some (final +:+ source).
Proof. intros E. destruct fuel; simpl; by rewrite E. Qed.

Lemma cached_Some cache i f : cache !! i = Some f → cached cache i = f.
Proof. unfold cached. by intros ->. Qed.

(** Past a closed text without tokens the loop only moves that text to
    [final]. *)
Lemma subst_loop_skip cache fuel final s t :
  find_token s = None → closed s = true →
  subst_loop fuel cache final (s +:+ t) = subst_loop fuel cache (final +:+ s) t.
Proof.
  intros Hs Hc. pose proof (find_token_app_None s t Hs Hc) as E.
  destruct (find_token t) as [[[p i] r]|] eqn:Et.
  - destruct fuel as [|fuel]; simpl; rewrite E, Et; [done|].
    by rewrite Str.app_assoc.
  - rewrite !subst_loop_done by done. by rewrite Str.app_assoc.
Qed.

(** The loop, started on [s] followed by more text, expands [s] as the
    specification says and goes on with the text that follows. *)
Lemma subst_loop_expands cache s out :
  Expands cache s out → Seamless cache s →
  ∀ t final, ∃ n, ∀ m,
    subst_loop (n + m) cache final (s +:+ t) = subst_loop m cache (final +:+ out) t.
Proof.
  induction 1 as [s Hs|s p i r f f' r' Hs Hf _ IHf _ IHr]; intros Hseam t final.
  - exists 0. intros m. simpl plus. inversion Hseam; subst; [|congruence].
    by apply subst_loop_skip.
  - inversion Hseam as [|? p0 i0 r0 f0 Hs0 Hp Hf0 Sf Sr]; subst; [congruence|].
    rewrite Hs in Hs0. injection Hs0 as <- <- <-.
    rewrite Hf in Hf0. injection Hf0 as <-.
    destruct (IHf Sf (r +:+ t) (final +:+ p)) as [n1 H1].
    destruct (IHr Sr t ((final +:+ p) +:+ f')) as [n2 H2].
    exists (S (n1 + n2)). intros m.
    replace (S (n1 + n2) + m) with (S (n1 + (n2 + m))) by lia.
    rewrite (subst_loop_step _ _ _ _ p i (r +:+ t)) by by apply find_token_app_Some.
    rewrite (cached_Some _ _ _ Hf), H1, H2. by rewrite !Str.app_assoc.
Qed.

(** The expansion of a seamless text contains no token and is closed. *)
Lemma expands_clean cache s out :
  Expands cache s out → Seamless cache s →
  find_token out = None ∧ closed out = true.
Proof.
  induction 1 as [s Hs|s p i r f f' r' Hs Hf _ IHf _ IHr]; intros Hseam.
  - inversion Hseam; subst; [done|congruence].
  - inversion Hseam as [|? p0 i0 r0 f0 Hs0 Hp Hf0 Sf Sr]; subst; [congruence|].
    rewrite Hs in Hs0. injection Hs0 as <- <- <-.
    rewrite Hf in Hf0. injection Hf0 as <-.
    destruct (IHf Sf) as [Tf Cf]. destruct (IHr Sr) as [Tr Cr].
    assert (find_token (f' +:+ r') = None) as Tfr.
    { by rewrite find_token_app_None, Tr. }
    split.
    + rewrite find_token_app_None, Tfr; eauto using find_token_before.
    + auto using closed_app.
Qed.

(** When no cached fragment contains a ["<"], every iteration removes one
    ["<"] from the text still to scan. *)
Lemma subst_loop_plain_terminates cache :
  (∀ k f, cache !! k = Some f → angles f = 0) →
  ∀ fuel final source, (angles source ≤ fuel)%nat →
    is_Some (subst_loop fuel cache final source).
Proof.
  intros Hplain. induction fuel as [|fuel IH]; intros final source Hle.
  - rewrite subst_loop_done; [done|]. apply find_token_no_angle. lia.
  - destruct (find_token source) as [[[p i] r]|] eqn:E.
    + rewrite (subst_loop_step _ _ _ _ _ _ _ E). apply IH.
      apply find_token_angles in E. rewrite angles_app.
      assert (angles (cached cache i) = 0) as ->; [|lia].
      unfold cached. destruct (cache !! i) as [f|] eqn:Ef; [by eapply Hplain|done].
    + by rewrite subst_loop_done.
Qed.

(** C2, as amended.  If the left-to-right literal expansion of the root
    string exists (every token met has a cache entry and the nesting of
    fragments through their tokens is well founded), and no text before a
    token and no text without tokens ends in an unfinished token, then the
    substitution pass terminates: with enough fuel the loop returns exactly
    that expansion, in which tokens inside cached fragments have been expanded
    too, and the result contains no token. *)
Theorem substitution_complete (cache : gmap string string) (root out : string) :
  Expands cache root out → Seamless cache root →
  (∃ fuel, ∀ more, subst_loop (fuel + more) cache "" root = Some out)
  ∧ find_token out = None.
Proof.
  intros Hexp Hseam. split; [|by eapply expands_clean].
  destruct (subst_loop_expands cache root out Hexp Hseam "" "") as [n Hn].
  exists n. intros m. rewrite Str.app_nil_r in Hn.
  rewrite Hn, subst_loop_done by done. by rewrite Str.app_nil_r.
Qed.

(** C6, as amended.  A token whose id has no cache entry does not make the
    loop spin: the iteration replaces it by the text "undefined" and goes on
    with a text that has fewer ["<"] than before; when in addition no cached
    fragment contains a ["<"], the pass ends within as many iterations as the
    source has ["<"] characters. *)
Theorem unregistered_token_consumed (cache : gmap string string)
    (source p i r : string) :
  find_token source = Some (p, i, r) → cache !! i = None →
  (∀ fuel final,
     subst_loop (S fuel) cache final source
     = subst_loop fuel cache (final +:+ p) ("undefined" +:+ r))
  ∧ angles ("undefined" +:+ r) < angles source
  ∧ ((∀ k f, cache !! k = Some f → angles f = 0) →
     ∀ final, is_Some (subst_loop (angles source) cache final source)).
Proof.
  intros Hs Hi. split; [|split].
  - intros fuel final. rewrite (subst_loop_step _ _ _ _ _ _ _ Hs).
    unfold cached. by rewrite Hi.
  - apply find_token_angles in Hs. rewrite angles_app. simpl. lia.
  - intros Hplain final. by apply subst_loop_plain_terminates.
Qed.

End Substitution.

Lemma substitution_complete_witness :
  let cache : gmap string string :=
    {[ "0.0" := "<b><#0.0.1.0#></b>"; "0.0.1.0" := "Y" ]} in
  (∃ fuel, ∀ more,
     subst_loop (fuel + more) cache "" "<p><#0.0#></p>" = Some "<p><b>Y</b></p>")
  ∧ find_token "<p><b>Y</b></p>" = None.
Proof.
  intros cache. apply substitution_complete.
  - apply (Expands_token cache _ "<p>" "0.0" "</p>" "<b><#0.0.1.0#></b>" "<b>Y</b>" "</p>");
      [reflexivity|reflexivity| |apply Expands_plain; reflexivity].
    apply (Expands_token cache _ "<b>" "0.0.1.0" "</b>" "Y" "Y" "</b>");
      [reflexivity|reflexivity|apply Expands_plain; reflexivity
      |apply Expands_plain; reflexivity].
  - apply (Seamless_token cache _ "<p>" "0.0" "</p>" "<b><#0.0.1.0#></b>");
      [reflexivity|reflexivity|reflexivity| |apply Seamless_plain; reflexivity].
    apply (Seamless_token cache _ "<b>" "0.0.1.0" "</b>" "Y");
      [reflexivity|reflexivity|reflexivity|apply Seamless_plain; reflexivity
      |apply Seamless_plain; reflexivity].
Defined.

(** C2 as stated fails: every token id has a cache entry, yet the pass never
    ends when a fragment contains its own token. *)
Lemma substitution_cyclic_cache_diverges :
  let cache : gmap string string := {[ "1" := "<#1#>" ]} in
  covered cache "<#1#>" = true
  ∧ (∀ k f, cache !! k = Some f → covered cache f = true)
  ∧ ∀ fuel, subst_loop fuel cache "" "<#1#>" = None.
Proof.
  intros cache.
  assert (covered cache "<#1#>" = true) as Hcov by reflexivity.
  split; [done|]. split.
  - intros k f [_ <-]%lookup_singleton_Some. done.
  - assert (∀ fuel final, subst_loop fuel cache final "<#1#>" = None) as H; [|done].
    induction fuel as [|fuel IH]; intros final; [reflexivity|].
    rewrite (subst_loop_step _ _ _ _ "" "1" "") by reflexivity.
    unfold cached, cache. rewrite lookup_singleton_eq. apply IH.
Qed.

Lemma unregistered_token_consumed_witness :
  let cache : gmap string string := {[ "0" := "a<#9#>b" ]} in
  find_token "a<#9#>b" = Some ("a", "9", "b")
  ∧ cache !! "9" = None
  ∧ ∀ fuel final,
      subst_loop (S fuel) cache final "a<#9#>b"
      = subst_loop fuel cache (final +:+ "a") ("undefined" +:+ "b").
Proof.
  intros cache.
  split; [reflexivity|]. split; [reflexivity|].
  exact (proj1 (unregistered_token_consumed cache "a<#9#>b" "a" "9" "b"
                  eq_refl eq_refl)).
Defined.

(** C6 as stated fails: the fragment cached under "0" contains a token whose
    id was never registered, and the pass still ends. *)
Lemma unregistered_token_terminates :
  let cache : gmap string string := {[ "0" := "a<#9#>b" ]} in
  find_token (cached cache "0") = Some ("a", "9", "b")
  ∧ cache !! "9" = None
  ∧ subst_loop 2 cache "" "<#0#>" = Some "aundefinedb".
Proof. intros cache. split; [reflexivity|]. split; reflexivity. Qed.

(** ** Reasoning about effectful code *)

Section Monad.

Context {K : Type}.
Implicit Types (w : World K).

Lemma bind_Ok {A B} (m : M K A) (k : A → M K B) w a w1 :
  m w = (Ok a, w1) → bind m k w = k a w1.
Proof. unfold bind. by intros ->. Qed.

Lemma bind_Throw {A B} (m : M K A) (k : A → M K B) w e w1 :
  m w = (Throw e, w1) → bind m k w = (Throw e, w1).
Proof. unfold bind. by intros ->. Qed.

Lemma bind_Ok_inv {A B} (m : M K A) (k : A → M K B) w b w' :
  bind m k w = (Ok b, w') → ∃ a w1, m w = (Ok a, w1) ∧ k a w1 = (Ok b, w').
Proof.
  unfold bind. destruct (m w) as [[a|e|] w1]; [|done..]. intros E. by exists a, w1.
Qed.

Lemma bind_get {B} (k : World K → M K B) w : bind get k w = k w w.
Proof. reflexivity. Qed.

Lemma bind_modify {B} (f : World K → World K) (k : unit → M K B) w :
  bind (modify f) k w = k tt (f w).
Proof. reflexivity. Qed.

Lemma bind_ret {A B} (a : A) (k : A → M K B) w : bind (ret a) k w = k a w.
Proof. reflexivity. Qed.

Lemma activeContext_eq w c ctx :
  w_context w = Some c → w_ctxs w !! c = Some ctx →
  activeContext w = (Ok (c, ctx), w).
Proof. unfold activeContext. by intros -> ->. Qed.

Lemma activeContext_Ok_inv w c ctx w' :
  activeContext w = (Ok (c, ctx), w') →
  w' = w ∧ w_context w = Some c ∧ w_ctxs w !! c = Some ctx.
Proof.
  unfold activeContext. destruct (w_context w) as [c'|]; [|done].
  destruct (w_ctxs w !! c') as [ctx'|] eqn:E; [|done]. by intros [= <- <- <-].
Qed.

Lemma getContext_eq w c ctx :
  w_ctxs w !! c = Some ctx → getContext c w = (Ok ctx, w).
Proof. unfold getContext. by intros ->. Qed.

Lemma getBoundary_eq w b (v : SuspenseContextValue K) :
  w_suspense w !! b = Some v → getBoundary b w = (Ok v, w).
Proof. unfold getBoundary. by intros ->. Qed.

Lemma getBoundary_Ok_inv w b (v : SuspenseContextValue K) w' :
  getBoundary b w = (Ok v, w') → w' = w ∧ w_suspense w !! b = Some v.
Proof.
  unfold getBoundary. destruct (w_suspense w !! b) as [v'|]; [|done].
  by intros [= <- <-].
Qed.

(** What [done_] does to the world. *)
Lemma done_eq key value w :
  ∃ w', done_ key value w = (Ok tt, w')
        ∧ w_trace w' = (w_trace w ++ [EvDone key value])%list
        ∧ w_suspense w' = w_suspense w
        ∧ w_registry w' = w_registry w ∖ {[key]}
        ∧ w_cache w' = (if truthy_str value
                        then <[key := default "" value]> (w_cache w)
                        else w_cache w).
Proof.
  unfold done_, log, bind, modify, get, enqueue, ret. simpl.
  destruct value as [[|a v]|]; simpl;
    destruct (decide (size (w_registry w ∖ {[key]}) = 0)); simpl;
    eexists; (split; [reflexivity|]); done.
Qed.

End Monad.

(** ** The boundary in non-async mode *)

Section NonAsync.

Context {K : Type} (run : K → M K JSX).
Implicit Types (w : World K) (props : SuspenseProps K).

(** X1. When the context is not in async mode and not in
    streaming mode, [Suspense] returns [props.fallback] and leaves the world
    untouched whatever the children are: they are never rendered.  In
    streaming mode the children are first rendered once through
    [createComponent] and their output dropped; then the fallback is
    returned, or the children's exception propagates. *)
Theorem Suspense_not_async (props : SuspenseProps K) (w : World K) (c : nat)
    (ctx : HydrationContext) :
  w_context w = Some c → w_ctxs w !! c = Some ctx → async ctx = false →
  (streaming ctx = false →
     Suspense run props w = (Ok (JStr (fallback props)), w))
  ∧ (streaming ctx = true →
       ∀ r w', createComponent (run (children props)) w = (Ok r, w') →
               async <$> w_ctxs w' !! c = Some false →
               Suspense run props w = (Ok (JStr (fallback props)), w'))
  ∧ (streaming ctx = true →
       ∀ e w', createComponent (run (children props)) w = (Throw e, w') →
               Suspense run props w = (Throw e, w')).
Proof.
  intros Hc Hctx Hasync. unfold Suspense.
  rewrite (bind_Ok _ _ _ _ _ (activeContext_eq w c ctx Hc Hctx)).
  unfold streamingPass. split; [|split]; intros Hs; rewrite Hs.
  - rewrite (bind_Ok (ret tt) _ w tt w eq_refl).
    rewrite (bind_Ok _ _ _ _ _ (getContext_eq w c ctx Hctx)).
    by rewrite Hasync.
  - intros r w' Hrun Hmode.
    rewrite (bind_Ok _ _ w tt w'); [|by rewrite (bind_Ok _ _ _ _ _ Hrun)].
    destruct (w_ctxs w' !! c) as [ctx'|] eqn:Hctx'; [|done].
    rewrite (bind_Ok _ _ _ _ _ (getContext_eq w' c ctx' Hctx')).
    injection Hmode as ->. done.
  - intros e w' Hrun.
    apply bind_Throw. by apply bind_Throw.
Qed.

End NonAsync.


Lemma Suspense_not_async_witness :
  async (mkContext "" 0 false false false) = false
  ∧ Suspense (exec 3) (mkProps "wait" (CThrow "boom")) (initial false false 0)
    = (Ok (JStr "wait"), initial false false 0).
Proof.
  split; [reflexivity|].
  exact (proj1 (Suspense_not_async (exec 3) (mkProps "wait" (CThrow "boom"))
                  (initial false false 0) 0 (mkContext "" 0 false false false)
                  eq_refl eq_refl eq_refl) eq_refl).
Defined.

Lemma Suspense_streaming_renders_children :
  async (mkContext "" 0 false false true) = false
  ∧ fst (Suspense (exec 3) (mkProps "wait" (CThrow "boom")) (initial false true 0))
    = Throw "boom"
  ∧ (let '(out, w') := Suspense (exec 3) (mkProps "wait" (CData 0)) (initial false true 1) in
     out = Ok (JStr "wait")
     ∧ w_promises w' = [Pending [HLoad 0]]
     ∧ r_loading <$> w_robjs w' !! 0 = Some true).
Proof.
  split; [reflexivity|]. split; [vm_compute; reflexivity|].
  vm_compute. split; [reflexivity|]. split; reflexivity.
Qed.

(** ** The boundary in async mode *)

Section AsyncBoundary.

Context {K : Type} (run : K → M K JSX).
Implicit Types (w : World K) (props : SuspenseProps K).

Lemma digits_idc s : Str.all is_digit s = true → Str.all is_idc s = true.
Proof.
  induction s as [|a s IH]; [done|]. simpl. intros [Ha Hs]%andb_prop.
  unfold is_idc at 1. rewrite Ha. simpl. by apply IH.
Qed.

(** [Suspense] in async mode, step by step. *)
Lemma Suspense_async props w c ctx0 w0 ctx :
  w_context w = Some c → w_ctxs w !! c = Some ctx0 →
  streamingPass run props ctx0 w = (Ok tt, w0) →
  w_ctxs w0 !! c = Some ctx → async ctx = true →
  let key := id ctx +:+ dec (count ctx) in
  let cl := mkCompleted c (w_owner w0) props in
  Suspense run props w =
    if lookupGlobal (w_owner w0)
    then bind (runSuspense run key cl) (settleBoundary props key) (entered key cl w0)
    else (Throw "TypeError", w0).
Proof.
  intros Hc Hctx0 Hpass Hctx Hasync key cl. unfold Suspense.
  rewrite (bind_Ok _ _ _ _ _ (activeContext_eq w c ctx0 Hc Hctx0)).
  rewrite (bind_Ok _ _ _ _ _ Hpass).
  rewrite (bind_Ok _ _ _ _ _ (getContext_eq w0 c ctx Hctx)).
  rewrite Hasync. unfold negb. rewrite bind_get.
  fold key. fold cl.
  destruct (lookupGlobal (w_owner w0)); [|reflexivity].
  unfold getCallback. rewrite bind_modify. unfold entered.
  destruct (w_suspense w0 !! key) as [v0|] eqn:E.
  - rewrite bind_ret. reflexivity.
  - rewrite bind_modify. reflexivity.
Qed.


End AsyncBoundary.


(** ** The fan-in test and the [done] callback *)

Section FanIn.

Context {K : Type} (run : K → M K JSX).
Implicit Types (w : World K) (props : SuspenseProps K).

(** X3. One invocation of [Suspense] in async mode calls the [done] callback
    it obtained from the driver exactly when, after its children have been
    rendered, [completedCount] equals [resources.size]; it then calls it once,
    without a value, and returns the children's output. *)
Theorem Suspense_done_iff_fanin (props : SuspenseProps K) (w w0 w1 : World K)
    (c : nat) (ctx0 ctx : HydrationContext) (res : JSX) (v : SuspenseContextValue K) :
  w_context w = Some c → w_ctxs w !! c = Some ctx0 →
  streamingPass run props ctx0 w = (Ok tt, w0) →
  w_ctxs w0 !! c = Some ctx → async ctx = true →
  lookupGlobal (w_owner w0) = true →
  let key := id ctx +:+ dec (count ctx) in
  runSuspense run key (mkCompleted c (w_owner w0) props)
    (entered key (mkCompleted c (w_owner w0) props) w0) = (Ok res, w1) →
  w_suspense w1 !! key = Some v →
  ∃ out w',
    Suspense run props w = (out, w')
    ∧ w_trace w' = (w_trace w1 ++ (if fanin v then [EvDone key None] else []))%list
    ∧ w_cache w' = w_cache w1
    ∧ (fanin v = true → out = Ok res ∧ key ∉ w_registry w').
Proof.
  intros Hc Hctx0 Hpass Hctx Hasync Hglobal key Hrun Hv.
  rewrite (Suspense_async run props w c ctx0 w0 ctx Hc Hctx0 Hpass Hctx Hasync).
  rewrite Hglobal. fold key. rewrite (bind_Ok _ _ _ _ _ Hrun).
  unfold settleBoundary. rewrite (bind_Ok _ _ _ _ _ (getBoundary_eq w1 key v Hv)).
  destruct (fanin v) eqn:Hf.
  - destruct (done_eq key None w1) as (w2 & Hd & Htr & _ & Hreg & Hcache).
    rewrite (bind_Ok _ _ _ _ _ Hd). exists (Ok res), w2.
    split; [done|]. split; [done|]. split; [done|]. intros _. split; [done|].
    rewrite Hreg. apply not_elem_of_difference. right. by apply elem_of_singleton.
  - unfold bind, activeContext.
    destruct (w_context w1) as [c'|]; [|eexists _, w1; by rewrite app_nil_r].
    destruct (w_ctxs w1 !! c') as [cur|]; [|eexists _, w1; by rewrite app_nil_r].
    destruct (async cur); eexists _, w1; by rewrite app_nil_r.
Qed.

(** X4. One invocation of a boundary's [completed] callback re-renders the
    children and calls [done] exactly when [completedCount] equals
    [resources.size] afterwards; it then passes the text of the new output,
    which is stored in the driver's cache unless it is the empty string, and
    the boundary's key leaves the registry. *)
Theorem completed_done_iff_fanin (key : string) (w w1 : World K) (res : JSX)
    (v0 v : SuspenseContextValue K) :
  w_suspense w !! key = Some v0 →
  runSuspense run key (completed v0) (set_trace (w_trace w ++ [EvCompleted key]) w)
    = (Ok res, w1) →
  w_suspense w1 !! key = Some v →
  ∃ w',
    completed_ run key w = (Ok tt, w')
    ∧ w_trace w'
      = (w_trace w1 ++ (if fanin v then [EvDone key (Some (resolveSSRNode res))] else []))%list
    ∧ (fanin v = false → w' = w1)
    ∧ (fanin v = true →
         (key ∉ w_registry w')
         ∧ w_cache w' = (match resolveSSRNode res with
                         | EmptyString => w_cache w1
                         | text => <[key := text]> (w_cache w1)
                         end)).
Proof.
  intros Hv0 Hrun Hv. unfold completed_, log. rewrite bind_modify.
  rewrite (bind_Ok _ _ _ _ _
             (getBoundary_eq (set_trace (w_trace w ++ [EvCompleted key]) w) key v0 Hv0)).
  rewrite (bind_Ok _ _ _ _ _ Hrun).
  rewrite (bind_Ok _ _ _ _ _ (getBoundary_eq w1 key v Hv)).
  destruct (fanin v) eqn:Hf.
  - destruct (done_eq key (Some (resolveSSRNode res)) w1)
      as (w2 & Hd & Htr & _ & Hreg & Hcache).
    exists w2. split; [done|]. split; [done|]. split; [done|]. intros _.
    split.
    { rewrite Hreg. apply not_elem_of_difference. right. by apply elem_of_singleton. }
    rewrite Hcache. by destruct (resolveSSRNode res).
  - exists w1. split; [done|]. split; [by rewrite app_nil_r|]. done.
Qed.

(** X5. A boundary whose re-rendered markup is the empty string leaves no
    cache entry, because the driver's callback stores only truthy values; the
    substitution pass then replaces the boundary's token by the text
    "undefined". *)
Theorem empty_fragment_renders_undefined (key : string) (w : World K)
    (before after : string) :
  key ≠ "" → Str.all is_idc key = true →
  w_cache w !! key = None →
  find_token before = None → closed before = true →
  find_token after = None →
  ∃ w', done_ key (Some "") w = (Ok tt, w')
        ∧ w_cache w' !! key = None
        ∧ ∀ fuel, subst_loop (S fuel) (w_cache w') "" (before +:+ token key +:+ after)
                  = Some (before +:+ "undefined" +:+ after).
Proof.
  intros Hne Hall Hmiss Hb Hcl Ha.
  destruct (done_eq key (Some "") w) as (w' & Hd & _ & _ & _ & Hcache).
  simpl in Hcache. exists w'. split; [done|]. rewrite Hcache. split; [done|].
  intros fuel.
  assert (find_token (before +:+ token key +:+ after) = Some (before, key, after)) as E.
  { rewrite (find_token_app_None before _ Hb Hcl), find_token_token by done.
    by rewrite Str.app_nil_r. }
  rewrite (subst_loop_step _ _ _ _ _ _ _ E). unfold cached. rewrite Hmiss.
  rewrite subst_loop_done.
  - reflexivity.
  - rewrite (find_token_app_None "undefined" after eq_refl eq_refl). by rewrite Ha.
Qed.

End FanIn.

Lemma Suspense_done_iff_fanin_witness :
  let w := underDriver (initial true false 0) in
  ∃ out w', Suspense (exec 5) (mkProps "wait" (CText "a")) w = (out, w')
            ∧ w_trace w' = [EvDone "0" None]
            ∧ out = Ok (JStr "a").
Proof.
  intros w.
  set (props := mkProps "wait" (CText "a")).
  set (cl := mkCompleted 0 (w_owner w) props).
  set (X := runSuspense (exec 5) "0" cl (entered "0" cl w)).
  assert (X = (Ok (JStr "a"), snd X)) as HX by (vm_compute; reflexivity).
  assert (w_suspense (snd X) !! "0" = Some (mkBoundary 0 ∅ cl)) as Hv
    by (vm_compute; reflexivity).
  destruct (Suspense_done_iff_fanin (exec 5) props w w (snd X) 0
              (mkContext "" 0 false true false) (mkContext "" 0 false true false)
              (JStr "a") (mkBoundary 0 ∅ cl)
              eq_refl eq_refl eq_refl eq_refl eq_refl eq_refl HX Hv)
    as (out & w' & HS & Htr & _ & Hout).
  exists out, w'. split; [exact HS|]. split.
  - rewrite Htr. vm_compute. reflexivity.
  - exact (proj1 (Hout eq_refl)).
Defined.

Lemma completed_done_iff_fanin_witness :
  let w := snd (Suspense (exec 5) (mkProps "wait" (CText "a"))
                  (underDriver (initial true false 0))) in
  ∃ w', completed_ (exec 5) "0" w = (Ok tt, w')
        ∧ w_trace w' = [EvDone "0" None; EvCompleted "0"; EvDone "0" (Some "a")]
        ∧ w_cache w' !! "0" = Some "a".
Proof.
  intros w.
  set (props := mkProps "wait" (CText "a")).
  set (cl := mkCompleted 0 [mkFrame None true] props).
  set (X := runSuspense (exec 5) "0" cl (set_trace (w_trace w ++ [EvCompleted "0"]) w)).
  assert (w_suspense w !! "0" = Some (mkBoundary 0 ∅ cl)) as Hv0
    by (vm_compute; reflexivity).
  assert (X = (Ok (JStr "a"), snd X)) as HX by (vm_compute; reflexivity).
  assert (w_suspense (snd X) !! "0" = Some (mkBoundary 0 ∅ cl)) as Hv
    by (vm_compute; reflexivity).
  destruct (completed_done_iff_fanin (exec 5) "0" w (snd X) (JStr "a")
              (mkBoundary 0 ∅ cl) (mkBoundary 0 ∅ cl) Hv0 HX Hv)
    as (w' & HS & Htr & _ & Hdone).
  exists w'. split; [exact HS|]. split.
  - rewrite Htr. vm_compute. reflexivity.
  - rewrite (proj2 (Hdone eq_refl)). vm_compute. reflexivity.
Defined.

Lemma empty_fragment_renders_undefined_witness :
  ∃ w', done_ "0.0" (Some "") (initial true false 0) = (Ok tt, w')
        ∧ subst_loop 1 (w_cache w') "" "<p><#0.0#></p>" = Some "<p>undefined</p>".
Proof.
  destruct (empty_fragment_renders_undefined "0.0" (initial true false 0) "<p>" "</p>")
    as (w' & Hd & _ & Hloop); [done|reflexivity|reflexivity|reflexivity|reflexivity
                              |reflexivity|].
  exists w'. split; [exact Hd|]. exact (Hloop 0).
Defined.

(** ** The driver's synchronous path *)

Section Driver.

Context {K : Type}.
Implicit Types (w : World K) (fn : M K JSX).

(** X6. When the thunk returns [v] and the registry is empty at that point,
    the executor resolves the promise at once with [v] itself, the value the
    thunk returned: no microtask is queued for it, the value is not passed
    through [resolveSSRNode] and no substitution is applied.  When the
    registry is not empty, the promise stays unresolved. *)
Theorem awaitSuspense_synchronous (fn : M K JSX) (w w1 : World K) (v : JSX) :
  withFrame (mkFrame None true) fn (freshDriver w) = (Ok v, w1) →
  w_outcome w1 = None →
  ∃ w', awaitSuspense fn w = (Ok tt, w')
        ∧ w_outcome w' = (if decide (size (w_registry w1) = 0) then Some v else None)
        ∧ w_res w' = Some v
        ∧ w_tasks w' = w_tasks w1
        ∧ w_cache w' = w_cache w1.
Proof.
  intros Hrun Hout. unfold awaitSuspense. rewrite bind_modify.
  fold (freshDriver w). rewrite (bind_Ok _ _ _ _ _ Hrun).
  rewrite bind_modify, bind_get. simpl.
  destruct (decide (size (w_registry w1) = 0)) as [E|E].
  - unfold resolve, modify. simpl. rewrite Hout. simpl. by eexists.
  - unfold ret. by eexists.
Qed.

End Driver.

Lemma awaitSuspense_synchronous_witness :
  ∃ w', awaitSuspense (exec 3 (CFrag [CText "a"; CText "<#1#>"])) (initial true false 0)
        = (Ok tt, w')
        ∧ w_outcome w' = Some (JArr [JStr "a"; JStr "<#1#>"]).
Proof.
  set (fn := exec 3 (CFrag [CText "a"; CText "<#1#>"])).
  set (X := withFrame (mkFrame None true) fn (freshDriver (initial true false 0))).
  assert (X = (Ok (JArr [JStr "a"; JStr "<#1#>"]), snd X)) as HX
    by (vm_compute; reflexivity).
  destruct (awaitSuspense_synchronous fn (initial true false 0) (snd X) _ HX)
    as (w' & HS & Hout & _); [vm_compute; reflexivity|].
  exists w'. split; [exact HS|]. rewrite Hout. vm_compute. reflexivity.
Defined.

(** ** Resolution of registered items *)

Section Resolution.

Context {K : Type} (run : K → M K JSX).
Implicit Types (w : World K) (v : SuspenseContextValue K).

Lemma notify_eq c w v :
  w_suspense w !! c = Some v →
  notify run c w =
    (if fanin (bump v) then completed_ run c else ret tt)
      (set_suspense (<[c := bump v]> (w_suspense w)) w).
Proof.
  intros Hv. unfold notify. rewrite (bind_Ok _ _ _ _ _ (getBoundary_eq w c v Hv)).
  by rewrite bind_modify.
Qed.

(** The handler attached by [load], for a resource registered with one
    boundary that does not reach its size with this resolution. *)
Lemma onLoad_below r res w ro c v :
  w_robjs w !! r = Some ro → r_contexts ro = [c] →
  w_suspense w !! c = Some v →
  S (completedCount v) ≠ size (resources v) →
  onLoad run r res w =
    (Ok tt,
     set_robjs (<[r := mkResource (r_id ro) (r_value ro) [] (r_loading ro)]> (w_robjs w))
       (set_suspense (<[c := bump v]> (w_suspense w))
          (set_resources (<[r_id ro := res]> (w_resources w)) w))).
Proof.
  intros Hr Hc Hv Hne. unfold onLoad.
  assert (getResource r w = (Ok ro, w)) as E by (unfold getResource; by rewrite Hr).
  rewrite (bind_Ok _ _ _ _ _ E), bind_modify, Hc. simpl forEach.
  set (w1 := set_resources _ w).
  rewrite (bind_Ok _ _ w1 tt (set_suspense (<[c := bump v]> (w_suspense w1)) w1)).
  - unfold bind, getResource, putResource, modify. simpl. by rewrite Hr.
  - rewrite (bind_Ok _ _ w1 tt (set_suspense (<[c := bump v]> (w_suspense w1)) w1));
      [done|].
    rewrite (notify_eq c w1 v Hv).
    assert (fanin (bump v) = false) as ->; [|done].
    unfold fanin. apply Nat.eqb_neq. exact Hne.
Qed.

(** X7. Each resolution of an item registered with a boundary adds one to the
    boundary's [completedCount], and [completed] is called only by the
    resolution that makes the count equal to [resources.size].  So while
    fewer items than the boundary has registered have resolved, [completed]
    has not been called at all: the handlers of [k] distinct items leave the
    trace of invocations unchanged and the count [k] higher. *)
Theorem resolutions_below_size (rs : list nat) (res : JSX) (c : string) :
  ∀ (w : World K) (v : SuspenseContextValue K),
  w_suspense w !! c = Some v →
  NoDup rs →
  (∀ r, r ∈ rs → ∃ ro, w_robjs w !! r = Some ro ∧ r_contexts ro = [c]) →
  completedCount v + length rs < size (resources v) →
  ∃ w', forEach rs (λ r, onLoad run r res) w = (Ok tt, w')
        ∧ w_trace w' = w_trace w
        ∧ w_tasks w' = w_tasks w
        ∧ w_suspense w' !! c
          = Some (mkBoundary (completedCount v + length rs) (resources v) (completed v))
        ∧ (∀ r, r ∈ rs → r_contexts <$> w_robjs w' !! r = Some [])
        ∧ (∀ r, r ∉ rs → w_robjs w' !! r = w_robjs w !! r).
Proof.
  induction rs as [|r rs IH]; intros w v Hv Hnd Hrs Hlt.
  - exists w. simpl. rewrite Nat.add_0_r. split; [done|]. split; [done|].
    split; [done|]. split; [by destruct v|]. split; [|done].
    intros r Hr. by apply elem_of_nil in Hr.
  - apply NoDup_cons in Hnd as [Hnotin Hnd].
    destruct (Hrs r) as (ro & Hr & Hc); [by left|].
    simpl in Hlt. simpl forEach.
    rewrite (bind_Ok _ _ _ _ _ (onLoad_below r res w ro c v Hr Hc Hv ltac:(lia))).
    set (w1 := set_robjs _ _).
    assert (w_suspense w1 !! c = Some (bump v)) as Hv1.
    { subst w1. simpl. apply lookup_insert_eq. }
    assert (∀ r', r' ≠ r → w_robjs w1 !! r' = w_robjs w !! r') as Hframe.
    { intros r' Hne. subst w1. simpl. by rewrite list_lookup_insert_ne. }
    destruct (IH w1 (bump v) Hv1 Hnd) as (w' & Hrun & Htr & Htk & Hv' & Hcl & Hfr).
    + intros r' Hr'. destruct (Hrs r') as (ro' & Hro' & Hc'); [by right|].
      exists ro'. split; [|done]. rewrite Hframe; [done|]. intros ->. done.
    + simpl. lia.
    + exists w'. split; [done|]. split; [by rewrite Htr|]. split; [by rewrite Htk|].
      split; [|split].
      * rewrite Hv'. simpl. do 2 f_equal. lia.
      * intros r' [->|Hr']%elem_of_cons; [|by apply Hcl].
        rewrite (Hfr r Hnotin). subst w1. simpl.
        rewrite list_lookup_insert_eq; [done|]. by eapply lookup_lt_Some.
      * intros r' Hr'. apply not_elem_of_cons in Hr' as [Hne Hr'].
        rewrite (Hfr r' Hr'). by apply Hframe.
Qed.

(** The resolution that makes the count equal to the size does call
    [completed]. *)
Lemma notify_at_size c w v :
  w_suspense w !! c = Some v →
  S (completedCount v) = size (resources v) →
  notify run c w = completed_ run c (set_suspense (<[c := bump v]> (w_suspense w)) w).
Proof.
  intros Hv Heq. rewrite (notify_eq c w v Hv).
  assert (fanin (bump v) = true) as ->; [|done].
  unfold fanin. apply Nat.eqb_eq. exact Heq.
Qed.

End Resolution.

Lemma resolutions_below_size_witness :
  ∃ w', forEach [0] (λ r, onLoad (exec 6) r (JStr "X")) twoPending = (Ok tt, w')
        ∧ w_trace w' = []
        ∧ completedCount <$> w_suspense w' !! "0.0" = Some 1.
Proof.
  destruct (w_suspense twoPending !! "0.0") as [v|] eqn:Hv;
    [|vm_compute in Hv; discriminate Hv].
  pose proof Hv as Hv'. vm_compute in Hv'. injection Hv' as Hv'.
  destruct (resolutions_below_size (exec 6) [0] (JStr "X") "0.0" twoPending v Hv)
    as (w' & Hrun & Htr & _ & Hv1 & _).
  - apply NoDup_singleton.
  - intros r Hr. apply list_elem_of_singleton in Hr. subst r.
    exists (mkResource "0.0.0.0" JNull ["0.0"] true).
    split; vm_compute; reflexivity.
  - rewrite <- Hv'. vm_compute. lia.
  - exists w'. split; [exact Hrun|]. split.
    + rewrite Htr. vm_compute. reflexivity.
    + rewrite Hv1. rewrite <- Hv'. reflexivity.
Defined.

(** ** The [loading] flag *)

Section Loading.

Context {K : Type} (run : K → M K JSX).
Implicit Types (w : World K).

Lemma loadingKept_refl w : loadingKept w w.
Proof. intros i ro ??. by exists ro. Qed.

Lemma loadingKept_trans w1 w2 w3 :
  loadingKept w1 w2 → loadingKept w2 w3 → loadingKept w1 w3.
Proof.
  intros H12 H23 i ro Hi Hl. destruct (H12 i ro Hi Hl) as (ro' & Hi' & Hl').
  by apply (H23 i ro').
Qed.

Lemma loadingKept_same w w' : w_robjs w' = w_robjs w → loadingKept w w'.
Proof. intros E i ro ??. exists ro. by rewrite E. Qed.

Lemma keeps_same {A} (m : M K A) :
  (∀ w o w', m w = (o, w') → w_robjs w' = w_robjs w) → keepsLoading m.
Proof. intros H w o w' E. apply loadingKept_same. by eapply H. Qed.

Lemma keeps_ret {A} (a : A) : keepsLoading (ret a : M K A).
Proof. apply keeps_same. by intros w o w' [= _ <-]. Qed.

Lemma keeps_throw {A} e : keepsLoading (throw e : M K A).
Proof. apply keeps_same. by intros w o w' [= _ <-]. Qed.

Lemma keeps_get : keepsLoading (get : M K (World K)).
Proof. apply keeps_same. by intros w o w' [= _ <-]. Qed.

Lemma keeps_modify (f : World K → World K) :
  (∀ w, w_robjs (f w) = w_robjs w) → keepsLoading (modify f).
Proof. intros H. apply keeps_same. intros w o w' [= _ <-]. apply H. Qed.

Lemma keeps_bind {A B} (m : M K A) (k : A → M K B) :
  keepsLoading m → (∀ a, keepsLoading (k a)) → keepsLoading (bind m k).
Proof.
  intros Hm Hk w o w'. unfold bind. destruct (m w) as [[a|e|] w1] eqn:E.
  - intros E'. eapply loadingKept_trans; [by eapply Hm|by eapply Hk].
  - intros [= _ <-]. by eapply Hm.
  - intros [= _ <-]. by eapply Hm.
Qed.

Lemma keeps_finally {A} (m : M K A) (fin : World K → World K) :
  keepsLoading m → (∀ w, w_robjs (fin w) = w_robjs w) → keepsLoading (finally m fin).
Proof.
  intros Hm Hfin w o w'. unfold finally. destruct (m w) as [o1 w1] eqn:E.
  intros [= _ <-]. eapply loadingKept_trans; [by eapply Hm|].
  by apply loadingKept_same.
Qed.

Lemma keeps_forEach {A} (l : list A) (f : A → M K unit) :
  (∀ x, keepsLoading (f x)) → keepsLoading (forEach l f).
Proof.
  intros Hf. induction l as [|x l IH]; simpl.
  - apply keeps_ret.
  - apply keeps_bind; [apply Hf|]. by intros _.
Qed.

(** Storing an object whose flag is set wherever the old one's was. *)
Lemma keeps_putResource_from r ro ro' w :
  w_robjs w !! r = Some ro → (r_loading ro = true → r_loading ro' = true) →
  ∀ o w', putResource r ro' w = (o, w') → loadingKept w w'.
Proof.
  intros Hr Hl o w' [= _ <-] i roi Hi Hli. simpl.
  destruct (decide (i = r)) as [->|Hne].
  - exists ro'. rewrite list_lookup_insert_eq by by eapply lookup_lt_Some.
    split; [done|]. apply Hl. congruence.
  - exists roi. by rewrite list_lookup_insert_ne.
Qed.

Ltac keeps_step :=
  first
    [ apply keeps_ret | apply keeps_throw | apply keeps_get
    | apply keeps_modify; reflexivity
    | apply keeps_bind; [|intros ?]
    | apply keeps_forEach; intros ?
    | apply keeps_finally; [|reflexivity]
    | assumption
    | match goal with
      | |- keepsLoading (match ?x with _ => _ end) => destruct x
      | |- keepsLoading (let '(_, _) := ?x in _) => destruct x
      end ].

Lemma keeps_activeContext : keepsLoading (activeContext : M K _).
Proof.
  apply keeps_same. intros w o w'. unfold activeContext.
  destruct (w_context w) as [c|]; [destruct (w_ctxs w !! c)|]; by intros [= _ <-].
Qed.

Lemma keeps_postIncrement c : keepsLoading (postIncrement c : M K _).
Proof.
  apply keeps_same. intros w o w'. unfold postIncrement.
  destruct (w_ctxs w !! c); by intros [= _ <-].
Qed.

Lemma keeps_newContext ctx : keepsLoading (newContext ctx : M K _).
Proof. apply keeps_same. by intros w o w' [= _ <-]. Qed.

Lemma keeps_getContext c : keepsLoading (getContext c : M K _).
Proof.
  apply keeps_same. intros w o w'. unfold getContext.
  destruct (w_ctxs w !! c); by intros [= _ <-].
Qed.

Lemma keeps_getBoundary b : keepsLoading (getBoundary b : M K _).
Proof.
  apply keeps_same. intros w o w'. unfold getBoundary.
  destruct (w_suspense w !! b); by intros [= _ <-].
Qed.

Lemma keeps_getResource r : keepsLoading (getResource r : M K _).
Proof.
  apply keeps_same. intros w o w'. unfold getResource.
  destruct (w_robjs w !! r); by intros [= _ <-].
Qed.

Lemma keeps_getLazy l : keepsLoading (getLazy l : M K _).
Proof.
  apply keeps_same. intros w o w'. unfold getLazy.
  destruct (w_lazies w !! l); by intros [= _ <-].
Qed.

Lemma keeps_then p h : keepsLoading (then_ p h : M K _).
Proof.
  apply keeps_same. intros w o w'. unfold then_, enqueue, modify.
  destruct (w_promises w !! p) as [[hs|v]|]; by intros [= _ <-].
Qed.

Lemma keeps_newPromise st : keepsLoading (newPromise st : M K _).
Proof. apply keeps_same. by intros w o w' [= _ <-]. Qed.

Lemma keeps_nextHydrateContext : keepsLoading (nextHydrateContext : M K _).
Proof.
  intros w o w'. unfold nextHydrateContext.
  destruct (w_context w) as [c|]; [|intros [= _ <-]; apply loadingKept_refl].
  revert w o w'. change (keepsLoading
    (let* '(_, ctx) := activeContext in
     let* n := postIncrement c in
     let* child := newContext (mkContext (id ctx +:+ dec n +:+ ".") 0
                                 (writeResource ctx) (async ctx) (streaming ctx)) in
     ret (Some child) : M K _)).
  apply keeps_bind; [apply keeps_activeContext|]. intros [? ctx].
  apply keeps_bind; [apply keeps_postIncrement|]. intros ?.
  apply keeps_bind; [apply keeps_newContext|]. intros ?. apply keeps_ret.
Qed.

Lemma keeps_createComponent (Comp : M K JSX) :
  keepsLoading Comp → keepsLoading (createComponent Comp).
Proof.
  intros HC w o w'. unfold createComponent.
  destruct (w_context w) as [c|]; [|by apply HC].
  revert w o w'. change (keepsLoading
    (let* n := nextHydrateContext in
     setHydrateContext n;;
     let* r := Comp in
     setHydrateContext (Some c);;
     ret r)).
  unfold setHydrateContext.
  apply keeps_bind; [apply keeps_nextHydrateContext|]. intros n.
  repeat keeps_step.
Qed.

Lemma keeps_withFrame {A} f (m : M K A) : keepsLoading m → keepsLoading (withFrame f m).
Proof.
  intros Hm. unfold withFrame. apply keeps_bind.
  - apply keeps_same. by intros w o w' [= _ <-].
  - intros prev. repeat keeps_step.
Qed.

Lemma keeps_runWithOwner {A} o (m : M K A) :
  keepsLoading m → keepsLoading (runWithOwner o m).
Proof.
  intros Hm w r w'. unfold runWithOwner. intros E.
  apply (keeps_finally m (set_owner (w_owner w)) Hm (λ _, eq_refl)) in E.
  eapply loadingKept_trans; [|exact E]. by apply loadingKept_same.
Qed.

Lemma keeps_done key value : keepsLoading (done_ key value : M K _).
Proof.
  unfold done_, log, enqueue. repeat keeps_step.
Qed.

Lemma keeps_register b rid : keepsLoading (register b rid : M K _).
Proof.
  unfold register. apply keeps_bind; [apply keeps_getBoundary|]. intros v.
  repeat keeps_step.
Qed.

Lemma keeps_runSuspense key cl :
  (∀ k, keepsLoading (run k)) → keepsLoading (runSuspense run key cl).
Proof.
  intros run_keeps. unfold runSuspense, setHydrateContext.
  apply keeps_bind; [apply keeps_getContext|]. intros ctx.
  apply keeps_bind; [apply keeps_newContext|]. intros copy.
  apply keeps_bind; [repeat keeps_step|]. intros _.
  apply keeps_runWithOwner, keeps_createComponent. unfold Provider.
  apply keeps_withFrame, run_keeps.
Qed.

Lemma keeps_completed key :
  (∀ k, keepsLoading (run k)) → keepsLoading (completed_ run key).
Proof.
  intros run_keeps.
  unfold completed_, log. apply keeps_bind; [repeat keeps_step|]. intros _.
  apply keeps_bind; [apply keeps_getBoundary|]. intros v0.
  apply keeps_bind; [by apply keeps_runSuspense|]. intros res.
  apply keeps_bind; [apply keeps_getBoundary|]. intros v.
  destruct (fanin v); [apply keeps_done|apply keeps_ret].
Qed.

Lemma keeps_notify c :
  (∀ k, keepsLoading (run k)) → keepsLoading (notify run c).
Proof.
  intros run_keeps.
  unfold notify. apply keeps_bind; [apply keeps_getBoundary|]. intros v.
  apply keeps_bind; [repeat keeps_step|]. intros _.
  destruct (fanin _); [by apply keeps_completed|apply keeps_ret].
Qed.

Lemma keeps_onLoad r res :
  (∀ k, keepsLoading (run k)) → keepsLoading (onLoad run r res).
Proof.
  intros run_keeps.
  unfold onLoad. intros w o w'. unfold bind at 1, getResource at 1.
  destruct (w_robjs w !! r) as [ro|] eqn:Hr; [|intros [= _ <-]; apply loadingKept_refl].
  revert o w'.
  change (∀ o w',
    (modify (λ w, set_resources (<[r_id ro := res]> (w_resources w)) w);;
     forEach (r_contexts ro) (notify run);;
     let* ro' := getResource r in
     putResource r (mkResource (r_id ro') (r_value ro') [] (r_loading ro'))) w = (o, w')
    → loadingKept w w').
  intros o w'. apply keeps_bind; [repeat keeps_step|]. intros _.
  apply keeps_bind; [apply keeps_forEach; intros c; by apply keeps_notify|]. intros _.
  clear. intros w o w'. unfold bind, getResource.
  destruct (w_robjs w !! r) as [ro'|] eqn:Hr; [|intros [= _ <-]; apply loadingKept_refl].
  by apply (keeps_putResource_from r ro').
Qed.


(** Rewriting a resource object without lowering its flag. *)
Lemma keeps_updateResource r (f : ResourceObj → ResourceObj) :
  (∀ ro, r_loading ro = true → r_loading (f ro) = true) →
  keepsLoading (let* ro := getResource r in putResource r (f ro) : M K unit).
Proof.
  intros Hf w o w'. unfold bind, getResource.
  destruct (w_robjs w !! r) as [ro|] eqn:Hr; [|intros [= _ <-]; apply loadingKept_refl].
  apply (keeps_putResource_from r ro); [done|apply Hf].
Qed.

Lemma keeps_read r : keepsLoading (read r : M K _).
Proof.
  intros w o w'. unfold read. unfold bind at 1, getResource at 1.
  destruct (w_robjs w !! r) as [ro|] eqn:Hr; [|intros [= _ <-]; apply loadingKept_refl].
  unfold bind at 1, activeContext at 1.
  destruct (w_context w) as [c|]; [|intros [= _ <-]; apply loadingKept_refl].
  destruct (w_ctxs w !! c) as [ctx|]; [|intros [= _ <-]; apply loadingKept_refl].
  rewrite bind_get.
  set (resolved := async ctx && bool_decide (is_Some (w_resources w !! r_id ro))).
  assert (∀ b o1 w1,
    (register b (r_id ro);;
     putResource r (mkResource (r_id ro) (r_value ro) (set_add b (r_contexts ro))
                      (r_loading ro))) w = (o1, w1) → loadingKept w w1) as Hreg.
  { intros b o1 w1. unfold bind at 1, register, bind, getBoundary, modify.
    destruct (w_suspense w !! b) as [v|]; [|intros [= _ <-]; apply loadingKept_refl].
    intros E. eapply loadingKept_trans; [|eapply (keeps_putResource_from r ro);
                                          [| |exact E]; done].
    by apply loadingKept_same. }
  unfold bind at 1.
  destruct (async ctx && negb resolved).
  - destruct (useContext (w_owner w)) as [b|].
    + destruct ((register b (r_id ro);; putResource r _) w) as [[[]|e|] w1] eqn:E.
      * apply Hreg in E. destruct resolved; intros [= _ <-]; exact E.
      * apply Hreg in E. intros [= _ <-]; exact E.
      * apply Hreg in E. intros [= _ <-]; exact E.
    + destruct resolved; intros [= _ <-]; apply loadingKept_refl.
  - destruct resolved; intros [= _ <-]; apply loadingKept_refl.
Qed.

Lemma keeps_createResource value : keepsLoading (createResource value : M K _).
Proof.
  unfold createResource. apply keeps_bind; [apply keeps_activeContext|].
  intros [c ctx]. apply keeps_bind; [apply keeps_postIncrement|]. intros n.
  intros w o w' [= _ <-] i ro Hi Hl. exists ro. simpl.
  by rewrite lookup_app_l by by eapply lookup_lt_Some.
Qed.

Lemma keeps_loadTail r ctx ro (fn : M K Produced) :
  keepsLoading fn → keepsLoading (loadTail r ctx ro fn).
Proof.
  intros Hfn. unfold loadTail. apply keeps_bind; [done|]. intros [p|v].
  - destruct (writeResource ctx); repeat keeps_step. apply keeps_then.
  - destruct (is_object v); [|apply keeps_throw].
    intros w o w'. unfold bind at 1, getResource at 1.
    destruct (w_robjs w !! r) as [ro'|] eqn:Hr;
      [|intros [= _ <-]; apply loadingKept_refl].
    unfold bind at 1.
    destruct (putResource r _ w) as [o1 w1] eqn:E.
    apply (keeps_putResource_from r ro') in E; [|done..].
    destruct o1 as [[]|e|]; [|intros [= _ <-]; exact E..].
    intros E'. eapply loadingKept_trans; [exact E|]. revert E'.
    generalize w1 o w'.
    change (keepsLoading (let* q := newPromise (Fulfilled (SVal v)) in
                          ret (TPromise q) : M K Thenable)).
    apply keeps_bind; [apply keeps_newPromise|]. intros q. apply keeps_ret.
Qed.

Lemma keeps_load r (fn : M K Produced) : keepsLoading fn → keepsLoading (load r fn).
Proof.
  intros Hfn. unfold load. apply keeps_bind; [apply keeps_activeContext|].
  intros [c ctx]. destruct (negb (async ctx) && negb (streaming ctx)); [apply keeps_ret|].
  intros w o w'. unfold bind at 1, getResource at 1.
  destruct (w_robjs w !! r) as [ro|] eqn:Hr; [|intros [= _ <-]; apply loadingKept_refl].
  rewrite bind_get. destruct (w_resources w !! r_id ro) as [v|].
  - unfold bind at 1.
    destruct (putResource r _ w) as [o1 w1] eqn:E.
    apply (keeps_putResource_from r ro) in E; [|done..].
    destruct o1; intros [= _ <-]; exact E.
  - unfold bind at 1.
    destruct (putResource r _ w) as [o1 w1] eqn:E.
    apply (keeps_putResource_from r ro) in E; [|done..].
    destruct o1 as [[]|e|]; [|intros [= _ <-]; exact E..].
    intros E'. eapply loadingKept_trans; [exact E|].
    exact (keeps_loadTail r ctx ro fn Hfn _ _ _ E').
Qed.

Lemma keeps_putLazy l lo : keepsLoading (putLazy l lo : M K _).
Proof. unfold putLazy. repeat keeps_step. Qed.

Lemma keeps_lazyCall l : (∀ k, keepsLoading (run k)) → keepsLoading (lazyCall run l).
Proof.
  intros Hrun. unfold lazyCall. apply keeps_bind; [apply keeps_activeContext|].
  intros [c ctx]. apply keeps_bind; [apply keeps_postIncrement|]. intros n.
  apply keeps_bind; [apply keeps_getLazy|]. intros lo.
  destruct (l_resolved lo) as [k|]; [apply Hrun|].
  apply keeps_bind; [apply keeps_get|]. intros w.
  apply keeps_bind.
  - destruct (useContext (w_owner w)); [|apply keeps_ret].
    apply keeps_bind; [apply keeps_register|]. intros _. apply keeps_putLazy.
  - intros _. apply keeps_bind; [apply keeps_then|]. intros _. apply keeps_ret.
Qed.

Lemma keeps_Suspense props :
  (∀ k, keepsLoading (run k)) → keepsLoading (Suspense run props).
Proof.
  intros Hrun. unfold Suspense. apply keeps_bind; [apply keeps_activeContext|].
  intros [c ctx0]. apply keeps_bind.
  { unfold streamingPass. destruct (streaming ctx0); [|apply keeps_ret].
    apply keeps_bind; [by apply keeps_createComponent|]. intros _. apply keeps_ret. }
  intros _. apply keeps_bind; [apply keeps_getContext|]. intros ctx.
  destruct (negb (async ctx)); [apply keeps_ret|].
  apply keeps_bind; [apply keeps_get|]. intros w.
  apply keeps_bind.
  { destruct (lookupGlobal (w_owner w)); [|apply keeps_throw].
    unfold getCallback. repeat keeps_step. }
  intros _. apply keeps_bind.
  { destruct (w_suspense w !! _); repeat keeps_step. }
  intros _. apply keeps_bind; [by apply keeps_runSuspense|]. intros res.
  apply keeps_bind; [apply keeps_getBoundary|]. intros v.
  destruct (fanin v).
  - apply keeps_bind; [apply keeps_done|]. intros _. apply keeps_ret.
  - apply keeps_bind; [apply keeps_activeContext|]. intros [? cur].
    destruct (async cur); apply keeps_ret.
Qed.

Lemma keeps_runTask fuel t : (∀ k, keepsLoading (run k)) → keepsLoading (runTask run fuel t).
Proof.
  intros Hrun. destruct t as [[r|l|l] v|]; simpl.
  - by apply keeps_onLoad.
  - unfold onLazySet. apply keeps_bind; [apply keeps_getLazy|]. intros lo.
    destruct v as [[]|k]; first [apply keeps_putLazy|apply keeps_throw].
  - unfold onLazyDone. apply keeps_bind; [apply keeps_getLazy|]. intros lo.
    apply keeps_bind; [apply keeps_forEach; intros c; by apply keeps_notify|].
    intros _. apply keeps_bind; [apply keeps_getLazy|]. intros lo'.
    apply keeps_putLazy.
  - unfold substitute. apply keeps_bind; [apply keeps_get|]. intros w.
    destruct (w_res w) as [res|]; [|apply keeps_throw].
    destruct (subst_loop _ _ _ _).
    + unfold resolve. apply keeps_modify. intros w0. by destruct (w_outcome w0).
    + apply keeps_same. by intros w0 o w' [= _ <-].
Qed.

Lemma drain_keeps fuel :
  (∀ k, keepsLoading (run k)) →
  ∀ w w', drain run fuel w = Some w' → loadingKept w w'.
Proof.
  intros Hrun. induction fuel as [|fuel IH]; intros w w'; simpl.
  - destruct (w_tasks w); [|done]. intros [= <-]. apply loadingKept_refl.
  - destruct (w_tasks w) as [|t ts]; [intros [= <-]; apply loadingKept_refl|].
    destruct (runTask run fuel t (set_tasks ts w)) as [o w1] eqn:E.
    apply keeps_runTask in E; [|done].
    assert (loadingKept w w1) as H1 by exact E.
    destruct o; [|  |done]; intros E'; apply IH in E';
      by eapply loadingKept_trans.
Qed.

(** X8. The [loading] flag of a resource starts [false]; a [load] call that
    gets to its producer (the pass is async or streaming and the id has no
    resolved value yet) sets it, and nothing in this file resets it: rendering
    (components, boundaries, reads, further loads) and every microtask,
    including the handler that stores the resolved value, leave a set flag
    set, as long as the user code run in between does. *)
Theorem loading_flag_monotone :
  (∀ k, keepsLoading (run k)) →
  (∀ value w r w',
     createResource value w = (Ok r, w') →
     r_loading <$> w_robjs w' !! r = Some false)
  ∧ (∀ r (fn : M K Produced) w c ctx ro o w',
       keepsLoading fn →
       w_context w = Some c → w_ctxs w !! c = Some ctx →
       async ctx || streaming ctx = true →
       w_robjs w !! r = Some ro → w_resources w !! r_id ro = None →
       load r fn w = (o, w') →
       r_loading <$> w_robjs w' !! r = Some true)
  ∧ (∀ fuel w w', drain run fuel w = Some w' → loadingKept w w')
  ∧ (∀ r res, keepsLoading (onLoad run r res))
  ∧ (∀ r, keepsLoading (read r : M K JSX))
  ∧ (∀ r (fn : M K Produced), keepsLoading fn → keepsLoading (load r fn))
  ∧ (∀ props, keepsLoading (Suspense run props))
  ∧ (∀ Comp : M K JSX, keepsLoading Comp → keepsLoading (createComponent Comp)).
Proof.
  intros Hrun. split; [|split; [|split; [|split; [|split; [|split; [|split]]]]]].
  - intros value w r w'. unfold createResource, bind, activeContext, postIncrement.
    destruct (w_context w) as [c|]; [|done].
    destruct (w_ctxs w !! c) as [ctx|] eqn:Hc; [|done]. simpl. rewrite Hc.
    intros [= <- <-]. simpl.
    by rewrite lookup_app_r, Nat.sub_diag.
  - intros r fn w c ctx ro o w' Hfn Hc Hctx Hmode Hr Hres. unfold load.
    rewrite (bind_Ok _ _ _ _ _ (activeContext_eq w c ctx Hc Hctx)).
    assert (negb (async ctx) && negb (streaming ctx) = false) as ->.
    { destruct (async ctx), (streaming ctx); done. }
    assert (getResource r w = (Ok ro, w)) as E by (unfold getResource; by rewrite Hr).
    rewrite (bind_Ok _ _ _ _ _ E), bind_get, Hres.
    unfold putResource at 1. rewrite bind_modify.
    set (w1 := set_robjs _ w). intros E'.
    assert (loadingKept w1 w') as Hk
      by exact (keeps_loadTail r ctx ro fn Hfn _ _ _ E').
    destruct (Hk r (mkResource (r_id ro) (r_value ro) (r_contexts ro) true))
      as (ro' & Hro' & Hl); [|done|by rewrite Hro', <- Hl].
    subst w1. simpl. apply list_lookup_insert_eq. by eapply lookup_lt_Some.
  - intros fuel. by apply drain_keeps.
  - intros r res. by apply keeps_onLoad.
  - apply keeps_read.
  - apply keeps_load.
  - intros props. by apply keeps_Suspense.
  - apply keeps_createComponent.
Qed.

End Loading.

(** Component programs never reset a flag either. *)
Lemma exec_keeps fuel : ∀ c, keepsLoading (exec fuel c).
Proof.
  induction fuel as [|fuel IH]; intros c.
  - apply keeps_same. by intros w o w' [= _ <-].
  - destruct c as [s|l|body|fb ch|p|p body|v|l|e]; simpl.
    + apply keeps_ret.
    + apply keeps_bind; [|intros vs; apply keeps_ret].
      induction l as [|c l IHl]; [apply keeps_ret|].
      apply keeps_bind; [apply IH|]. intros v.
      apply keeps_bind; [apply IHl|]. intros vs. apply keeps_ret.
    + apply keeps_createComponent, IH.
    + apply keeps_createComponent, keeps_Suspense, IH.
    + apply keeps_createComponent.
      apply keeps_bind; [apply keeps_createResource|]. intros r.
      apply keeps_bind; [apply keeps_load, keeps_ret|]. intros _. apply keeps_read.
    + apply keeps_createComponent.
      apply keeps_bind; [apply keeps_createResource|]. intros r.
      apply keeps_bind; [apply keeps_load, keeps_ret|]. intros _.
      apply keeps_bind; [apply keeps_read|]. intros v.
      destruct (isUndefined v); [apply keeps_ret|apply IH].
    + apply keeps_createComponent.
      apply keeps_bind; [apply keeps_createResource|]. intros r.
      apply keeps_bind; [apply keeps_load, keeps_ret|]. intros _. apply keeps_read.
    + apply keeps_createComponent, keeps_lazyCall, IH.
    + apply keeps_throw.
Qed.

Lemma loading_flag_monotone_witness :
  ∃ w', drain (exec 6) 10 (settle 1 (SVal (JStr "Y")) (settle 0 (SVal (JStr "X")) twoPending))
        = Some w'
        ∧ w_resources w' !! "0.0.0.0" = Some (JStr "X")
        ∧ r_loading <$> w_robjs w' !! 0 = Some true.
Proof.
  set (w := settle 1 (SVal (JStr "Y")) (settle 0 (SVal (JStr "X")) twoPending)).
  destruct (drain (exec 6) 10 w) as [w'|] eqn:E; [|vm_compute in E; discriminate E].
  exists w'. split; [reflexivity|]. split.
  - vm_compute in E. injection E as <-. vm_compute. reflexivity.
  - destruct (loading_flag_monotone (exec 6) (exec_keeps 6)) as (_ & _ & Hdrain & _).
    destruct (Hdrain 10 w w' E 0 (mkResource "0.0.0.0" JNull ["0.0"] true))
      as (ro' & Hro' & Hl); [vm_compute; reflexivity|reflexivity|].
    by rewrite Hro', <- Hl.
Defined.

(** ** Rendered nodes *)

Lemma resolveSSRNode_arr_app (l1 l2 : list JSX) :
  resolveSSRNode (JArr (l1 ++ l2))
  = resolveSSRNode (JArr l1) +:+ resolveSSRNode (JArr l2).
Proof.
  induction l1 as [|n l1 IH]; [reflexivity|].
  simpl in *. by rewrite IH, Str.app_assoc.
Qed.

(** X10. [resolveSSRNode] flattens arrays: an array of arrays renders as the
    array of all their elements, an object renders as its [t] field, and
    [null] and booleans render as nothing wherever they occur. *)
Theorem resolveSSRNode_flat (ls : list (list JSX)) (l1 l2 : list JSX) (t : JSX)
    (b : bool) :
  resolveSSRNode (JArr (JArr <$> ls)) = resolveSSRNode (JArr (concat ls))
  ∧ resolveSSRNode (JArr (l1 ++ JObj t :: l2)) = resolveSSRNode (JArr (l1 ++ t :: l2))
  ∧ resolveSSRNode (JArr (l1 ++ JNull :: l2)) = resolveSSRNode (JArr (l1 ++ l2))
  ∧ resolveSSRNode (JArr (l1 ++ JBool b :: l2)) = resolveSSRNode (JArr (l1 ++ l2)).
Proof.
  split; [|split; [|split]].
  - induction ls as [|l ls IH]; [reflexivity|].
    rewrite fmap_cons. simpl concat. rewrite resolveSSRNode_arr_app, <- IH.
    reflexivity.
  - by rewrite !resolveSSRNode_arr_app.
  - by rewrite !resolveSSRNode_arr_app.
  - by rewrite !resolveSSRNode_arr_app.
Qed.

(** ** Lists and conditions *)

Section Control.

Context {K : Type}.
Implicit Types (w : World K).

Lemma mapLoop_pure {T} (g : T → nat → JSX) (list : list T) :
  ∀ i mapped w,
    mapLoop (λ item i, ret (g item i) : M K JSX) i list mapped w
    = (Ok (mapped +:+ joined g i list), w).
Proof.
  induction list as [|item rest IH]; intros i mapped w; simpl.
  - by rewrite Str.app_nil_r.
  - rewrite bind_ret, IH. by rewrite Str.app_assoc.
Qed.

(** X11. For children that only compute their output, [For] and [Index]
    over a non-empty list return the object [{ t }] whose text is the
    children's texts joined in list order, each child getting its item and
    its position; over an empty list they return the fallback, or the empty
    string when there is none, and never the object form. *)
Theorem For_Index_joined {T} (each : list T) (fallback : option string)
    (g : T → nat → JSX) (w : World K) :
  For each fallback (λ item index, ret (g item (index tt))) w
  = (Ok (match each with
         | [] => JStr (default "" fallback)
         | _ => JObj (JStr (joined g 0 each))
         end), w)
  ∧ Index each fallback (λ item index, ret (g (item tt) index)) w
    = For each fallback (λ item index, ret (g item (index tt))) w
  ∧ (∀ l1 l2,
       joined g 0 (l1 ++ l2)
       = joined g 0 l1 +:+ joined (λ item i, g item (length l1 + i)) 0 l2).
Proof.
  split; [|split].
  - unfold For, simpleMap. destruct each as [|item rest]; [reflexivity|].
    unfold bind at 1. by rewrite (mapLoop_pure g (item :: rest) 0 "" w).
  - reflexivity.
  - intros l1 l2.
    assert (∀ i, joined g i (l1 ++ l2)
                 = joined g i l1 +:+ joined (λ item j, g item (length l1 + j)) i l2)
      as H; [|apply H].
    induction l1 as [|x l1 IH]; intros i.
    + reflexivity.
    + simpl. rewrite IH, Str.app_assoc. do 2 f_equal.
      clear. revert i. induction l2 as [|y l2 IH2]; intros i; [done|].
      simpl. rewrite Nat.add_succ_r. f_equal. apply IH2.
Qed.

(** X12. [Switch] renders the first condition whose [when] is truthy and
    ignores everything after it; when no condition is truthy it returns the
    fallback, or the empty string when there is none.  A single condition
    that is not wrapped in an array is treated as an array of one. *)
Theorem Switch_first_truthy (fallback : option string) (l : list (MatchProps K))
    (m : MatchProps K) :
  Switch fallback (ManyConditions l)
  = match List.find (λ m, truthy (m_when m)) l with
    | Some m => branch (m_children m) (m_when m)
    | None => ret (orEmpty fallback)
    end
  ∧ Switch fallback (OneCondition m) = Switch fallback (ManyConditions [m])
  ∧ (∀ l1 l2,
       Forall (λ m', truthy (m_when m') = false) l1 → truthy (m_when m) = true →
       Switch fallback (ManyConditions (l1 ++ Match m :: l2))
       = branch (m_children m) (m_when m)).
Proof.
  unfold Switch. split; [|split].
  - induction l as [|m' l IH]; [reflexivity|]. simpl.
    destruct (truthy (m_when m')); [reflexivity|exact IH].
  - reflexivity.
  - intros l1 l2 Hl1 Hm. induction Hl1 as [|m' l1 Hm' _ IH]; simpl.
    + unfold Match. by rewrite Hm.
    + by rewrite Hm'.
Qed.

(** X13. [Show] is [Switch] with one [Match]: for every condition value,
    fallback and children they render the same. *)
Theorem Show_is_Switch (when : JSX) (fallback : option string) (children : Branch K) :
  Show when fallback children
  = Switch fallback (OneCondition (Match (mkMatch when children)))
  ∧ Show when fallback children
    = Switch fallback (ManyConditions [Match (mkMatch when children)]).
Proof.
  unfold Show, Switch, Match. simpl. split; by destruct (truthy when).
Qed.

End Control.

(** ** Props utilities *)

Section PropsFacts.

Context {D : Type}.
Variable proto : gset string.
Variable dflt : D.
Implicit Types (k : list string) (d clone target : gmap string D).

Lemma split_union k : ∀ d clone c' d',
  split proto dflt k d clone = (c', d') →
  clone ##ₘ d →
  (∀ key, key ∈ k → key ∈ proto → is_Some (d !! key) ∨ is_Some (clone !! key)) →
  c' ∪ d' = clone ∪ d ∧ c' ##ₘ d' ∧ d' ⊆ d ∧ clone ⊆ c'
  ∧ ∀ key, key ∈ k → d' !! key = None.
Proof.
  induction k as [|key k IH]; intros d clone c' d' E Hdisj Hproto; simpl in E.
  - injection E as <- <-. split; [done|]. split; [done|]. split; [done|].
    split; [done|]. intros key Hkey. by apply elem_of_nil in Hkey.
  - destruct (d !! key) as [dk|] eqn:Hd.
    + assert (clone !! key = None) as Hc.
      { destruct (clone !! key) as [x|] eqn:Hx; [|done].
        by destruct (map_disjoint_spec clone d) as [H _];
          destruct (H Hdisj key x dk Hx Hd). }
      apply IH in E as (HU & HD & Hsub & Hcl & Hgone).
      * split; [|split; [|split; [|split]]].
        -- rewrite HU. rewrite <- insert_union_l, insert_union_r by done.
           by rewrite insert_delete_id.
        -- done.
        -- etrans; [exact Hsub|]. apply delete_subseteq.
        -- etrans; [|exact Hcl]. by apply insert_subseteq.
        -- intros key' [->|Hk']%elem_of_cons; [|by apply Hgone].
           eapply lookup_weaken_None; [|exact Hsub]. apply lookup_delete_eq.
      * apply map_disjoint_insert_l. split; [apply lookup_delete_eq|].
        by apply map_disjoint_delete_r.
      * intros key' Hk' Hp'. destruct (decide (key' = key)) as [->|Hne].
        -- right. rewrite lookup_insert_eq. by eexists.
        -- rewrite lookup_delete_ne, lookup_insert_ne by done.
           apply Hproto; [by right|done].
    + assert (split proto dflt k d clone = (c', d')) as E'.
      { destruct (decide (key ∈ proto)) as [Hp|]; [|done].
        destruct (clone !! key) as [x|] eqn:Hx; [done|].
        destruct (Hproto key) as [[? H]|[? H]]; [by left|done|congruence..]. }
      apply IH in E' as (HU & HD & Hsub & Hcl & Hgone); [|done|].
      * split; [done|]. split; [done|]. split; [done|]. split; [done|].
        intros key' [->|Hk']%elem_of_cons; [|by apply Hgone].
        by eapply lookup_weaken_None.
      * intros key' Hk' Hp'. apply Hproto; [by right|done].
Qed.

(** The last piece takes everything that is left. *)
Lemma split_rest d :
  split proto dflt (elements (dom d)) d ∅ = (d, ∅).
Proof.
  destruct (split proto dflt (elements (dom d)) d ∅) as [c' d'] eqn:E.
  apply split_union in E as (HU & HD & Hsub & _ & Hgone).
  - assert (d' = ∅) as ->.
    { apply map_eq. intros key. rewrite lookup_empty.
      destruct (d' !! key) as [x|] eqn:Hx; [|done].
      rewrite Hgone in Hx; [done|].
      apply elem_of_elements, elem_of_dom. exists x.
      by eapply lookup_weaken. }
    rewrite (right_id_L ∅ (∪)), (left_id_L ∅ (∪)) in HU. by rewrite HU.
  - apply map_disjoint_empty_l.
  - intros key Hkey _. left. by apply elem_of_dom, elem_of_elements.
Qed.

Lemma assignProps_app target l1 l2 :
  assignProps (assignProps target l1) l2 = assignProps target (l1 ++ l2).
Proof. unfold assignProps. by rewrite fold_left_app. Qed.

Lemma splitGroups_union keys : ∀ d clones rest target,
  splitGroups proto dflt keys d = (clones, rest) →
  target ##ₘ d →
  (∀ k key, k ∈ keys → key ∈ k → key ∉ proto) →
  assignProps target clones ∪ rest = target ∪ d
  ∧ assignProps target clones ##ₘ rest
  ∧ length clones = length keys
  ∧ Forall (λ piece, piece ⊆ d) clones
  ∧ rest ⊆ d.
Proof.
  induction keys as [|k keys IH]; intros d clones rest target E Hdisj Hproto;
    simpl in E.
  - injection E as <- <-. split; [done|]. split; [done|]. split; [done|].
    split; [constructor|done].
  - destruct (split proto dflt k d ∅) as [c d1] eqn:Ek.
    destruct (splitGroups proto dflt keys d1) as [cs r] eqn:Eg.
    injection E as <- <-.
    apply split_union in Ek as (HU & HD & Hsub & _ & _);
      [|apply map_disjoint_empty_l|].
    2:{ intros key Hk Hp. by destruct (Hproto k key (list_elem_of_here _ _) Hk). }
    rewrite (left_id_L ∅ (∪)) in HU.
    assert (c ⊆ d) as Hc. { rewrite <- HU. by apply map_union_subseteq_l. }
    assert (c ∪ target ##ₘ d1) as Hdisj1.
    { apply map_disjoint_union_l. split; [done|].
      by eapply map_disjoint_weaken_r. }
    destruct (IH d1 cs r (c ∪ target) Eg Hdisj1) as (HU' & HD' & Hlen & Hall & Hr).
    { intros k' key Hk'. apply Hproto. by right. }
    change (assignProps target (c :: cs)) with (assignProps (c ∪ target) cs).
    split; [|split; [|split; [|split]]].
    + rewrite HU', <- HU.
      rewrite (map_union_comm c target)
        by (symmetry; eapply map_disjoint_weaken_r; [exact Hdisj|exact Hc]).
      by rewrite (assoc_L (∪)).
    + exact HD'.
    + simpl. by rewrite Hlen.
    + constructor; [done|].
      eapply Forall_impl; [exact Hall|]. intros piece Hp.
      etrans; [exact Hp|exact Hsub].
    + etrans; [exact Hr|exact Hsub].
Qed.

(** X14. Splitting and merging back is the identity: when no requested key
    is the name of an [Object.prototype] member, [splitProps] returns one
    object per key group plus a last one, each a part of [props], and
    assigning them all onto an empty object gives [props] again. *)
Theorem splitProps_assignProps (props : gmap string D) (keys : list (list string)) :
  (∀ k key, k ∈ keys → key ∈ k → key ∉ proto) →
  assignProps ∅ (splitProps proto dflt props keys) = props
  ∧ length (splitProps proto dflt props keys) = S (length keys)
  ∧ Forall (λ piece, piece ⊆ props) (splitProps proto dflt props keys).
Proof.
  intros Hproto. unfold splitProps.
  destruct (splitGroups proto dflt keys props) as [clones rest] eqn:E.
  rewrite split_rest. simpl.
  destruct (splitGroups_union keys props clones rest ∅ E) as (HU & HD & Hlen & Hall & Hr);
    [apply map_disjoint_empty_l|done|].
  rewrite (left_id_L ∅ (∪)) in HU.
  split; [|split].
  - rewrite <- assignProps_app. unfold assignProps at 1. simpl.
    unfold defineProperties. rewrite map_union_comm; [done|by symmetry].
  - rewrite length_app, Hlen. simpl. lia.
  - apply Forall_app. split; [done|]. by constructor.
Qed.

(** A requested key that [props] lacks but [Object.prototype] has ends up
    in the group's object, with the default attributes. *)
Lemma split_inherited key d :
  d !! key = None → key ∈ proto →
  fst (split proto dflt [key] d ∅) = {[key := dflt]}.
Proof.
  intros Hd Hp. simpl. rewrite Hd. rewrite decide_True by done.
  by rewrite lookup_empty.
Qed.

(** A key that no source has keeps the target's descriptor. *)
Lemma assignProps_untouched (sources : list (gmap string D)) (key : string) :
  ∀ target, (∀ s, s ∈ sources → s !! key = None) →
  assignProps target sources !! key = target !! key.
Proof.
  induction sources as [|s sources IH]; intros target Hnone; [done|].
  unfold assignProps in *. simpl. rewrite IH.
  - unfold defineProperties. rewrite lookup_union, (Hnone s) by by left.
    by destruct (target !! key).
  - intros s' Hs'. apply Hnone. by right.
Qed.

End PropsFacts.

Section AttributeFacts.

Context {V : Type} `{EqDecision V}.
Implicit Types (target source : gmap string (Descriptor V)).
Implicit Types (sources : list (gmap string (Descriptor V))).

Lemma definePropertiesOrThrow_Some extensible target source result :
  definePropertiesOrThrow extensible target source = Some result →
  result = defineProperties target source.
Proof.
  unfold definePropertiesOrThrow, defineProperties.
  destruct (decide _); [|done]. congruence.
Qed.

Lemma definePropertiesOrThrow_refused extensible target source key new :
  source !! key = Some new → permitted extensible (target !! key) new = false →
  definePropertiesOrThrow extensible target source = None.
Proof.
  intros Hs Hp. unfold definePropertiesOrThrow.
  destruct (decide _) as [Hall|]; [|done].
  specialize (Hall key new Hs). simpl in Hall. congruence.
Qed.

Lemma definePropertiesOrThrow_configurable target source :
  map_Forall (λ _ d, d_configurable d = true) target →
  definePropertiesOrThrow true target source = Some (source ∪ target).
Proof.
  intros Hc. unfold definePropertiesOrThrow.
  rewrite decide_True; [done|].
  intros key new _. simpl. unfold permitted.
  destruct (target !! key) as [cur|] eqn:Ht; [|done].
  by rewrite (Hc key cur Ht).
Qed.

Lemma assignPropsOrThrow_app extensible sources : ∀ target source,
  assignPropsOrThrow extensible target (sources ++ [source])
  = match assignPropsOrThrow extensible target sources with
    | Some t => definePropertiesOrThrow extensible t source
    | None => None
    end.
Proof.
  induction sources as [|s sources IH]; intros target source; simpl.
  - by destruct (definePropertiesOrThrow extensible target source).
  - destruct (definePropertiesOrThrow extensible target s); [apply IH|done].
Qed.

Lemma assignPropsOrThrow_Some extensible sources : ∀ target result,
  assignPropsOrThrow extensible target sources = Some result →
  result = assignProps target sources.
Proof.
  induction sources as [|s sources IH]; intros target result; simpl.
  - by intros [= <-].
  - destruct (definePropertiesOrThrow extensible target s) as [t|] eqn:E; [|done].
    intros Hr. apply definePropertiesOrThrow_Some in E. subst t. by apply IH.
Qed.

Lemma assignPropsOrThrow_configurable sources : ∀ target,
  map_Forall (λ _ d, d_configurable d = true) target →
  Forall (map_Forall (λ _ d, d_configurable d = true)) sources →
  ∃ result, assignPropsOrThrow true target sources = Some result
            ∧ map_Forall (λ _ d, d_configurable d = true) result.
Proof.
  induction sources as [|s sources IH]; intros target Ht Hs; simpl.
  - by exists target.
  - apply Forall_cons in Hs as [Hs Hrest].
    rewrite (definePropertiesOrThrow_configurable target s Ht).
    apply IH; [|done]. by apply map_Forall_union_2.
Qed.


End AttributeFacts.

(** ** Reading and loading a resource *)

Section Resources.

Context {K : Type} (run : K → M K JSX).
Implicit Types (w : World K).

Lemma getResource_eq w r ro :
  w_robjs w !! r = Some ro → getResource r w = (Ok ro, w).
Proof. unfold getResource. by intros ->. Qed.

Lemma register_eq w b rid (bv : SuspenseContextValue K) :
  w_suspense w !! b = Some bv →
  register b rid w
  = (Ok tt, set_suspense (<[b := mkBoundary (completedCount bv) ({[rid]} ∪ resources bv)
                                   (completed bv)]> (w_suspense w)) w).
Proof.
  intros Hbv. unfold register.
  by rewrite (bind_Ok _ _ _ _ _ (getBoundary_eq w b bv Hbv)).
Qed.

Lemma set_add_idem b l : set_add b (set_add b l) = set_add b l.
Proof.
  assert (b ∈ set_add b l) as Hin.
  { unfold set_add. destruct (decide (b ∈ l)); [done|].
    apply elem_of_app. right. by apply list_elem_of_singleton. }
  unfold set_add at 1. by rewrite decide_True.
Qed.

(** A read of an unresolved id under a boundary, in async mode. *)
Lemma read_pending_eq r c ctx b w0 ro0 (bv0 : SuspenseContextValue K) :
  async ctx = true →
  w_context w0 = Some c → w_ctxs w0 !! c = Some ctx →
  w_robjs w0 !! r = Some ro0 → w_resources w0 !! r_id ro0 = None →
  useContext (w_owner w0) = Some b → w_suspense w0 !! b = Some bv0 →
  read r w0 =
    (Ok (r_value ro0),
     set_robjs (<[r := mkResource (r_id ro0) (r_value ro0)
                         (set_add b (r_contexts ro0)) (r_loading ro0)]> (w_robjs w0))
       (set_suspense (<[b := mkBoundary (completedCount bv0)
                               ({[r_id ro0]} ∪ resources bv0) (completed bv0)]>
                        (w_suspense w0)) w0)).
Proof.
  intros Hasync Hc0 Hctx0 Hr0 Hn0 Hb0 Hbv0. unfold read.
  rewrite (bind_Ok _ _ _ _ _ (getResource_eq w0 r ro0 Hr0)).
  rewrite (bind_Ok _ _ _ _ _ (activeContext_eq w0 c ctx Hc0 Hctx0)).
  rewrite bind_get, Hasync, Hn0, Hb0.
  rewrite bool_decide_false by (by intros [? ?]). simpl.
  rewrite (bind_Ok _ _ w0 tt
             (set_robjs (<[r := mkResource (r_id ro0) (r_value ro0)
                                  (set_add b (r_contexts ro0)) (r_loading ro0)]>
                           (w_robjs w0))
                (set_suspense (<[b := mkBoundary (completedCount bv0)
                                        ({[r_id ro0]} ∪ resources bv0)
                                        (completed bv0)]> (w_suspense w0)) w0)));
    [reflexivity|].
  by rewrite (bind_Ok _ _ _ _ _ (register_eq w0 b (r_id ro0) bv0 Hbv0)).
Qed.

(** X16. In async mode, reading a resource whose id has no resolved value
    registers the id with the nearest enclosing boundary and remembers the
    boundary, and reading it again changes nothing more: the second read
    returns the same value and leaves the world as the first one left it.
    Reading a resource whose id is resolved returns the stored value and
    registers nothing. *)
Theorem read_registers_once (r : nat) (w : World K) (c : nat) (ctx : HydrationContext)
    (ro : ResourceObj) :
  w_context w = Some c → w_ctxs w !! c = Some ctx → async ctx = true →
  w_robjs w !! r = Some ro →
  (∀ v, w_resources w !! r_id ro = Some v → read r w = (Ok v, w))
  ∧ (w_resources w !! r_id ro = None →
     ∀ b bv, useContext (w_owner w) = Some b → w_suspense w !! b = Some bv →
       ∃ w1, read r w = (Ok (r_value ro), w1)
             ∧ resources <$> w_suspense w1 !! b = Some ({[r_id ro]} ∪ resources bv)
             ∧ completedCount <$> w_suspense w1 !! b = Some (completedCount bv)
             ∧ r_contexts <$> w_robjs w1 !! r = Some (set_add b (r_contexts ro))
             ∧ read r w1 = (Ok (r_value ro), w1)).
Proof.
  intros Hc Hctx Hasync Hr. split.
  - intros v Hv. unfold read.
    rewrite (bind_Ok _ _ _ _ _ (getResource_eq w r ro Hr)).
    rewrite (bind_Ok _ _ _ _ _ (activeContext_eq w c ctx Hc Hctx)).
    rewrite bind_get, Hasync, Hv.
    rewrite bool_decide_true by by eexists. reflexivity.
  - intros Hnone b bv Hb Hbv.
    rewrite (read_pending_eq r c ctx b w ro bv Hasync Hc Hctx Hr Hnone Hb Hbv).
    set (ro1 := mkResource (r_id ro) (r_value ro) (set_add b (r_contexts ro)) (r_loading ro)).
    set (bv1 := mkBoundary (completedCount bv) ({[r_id ro]} ∪ resources bv) (completed bv)).
    set (w1 := set_robjs _ _).
    assert (w_robjs w1 !! r = Some ro1) as Hr1.
    { subst w1. simpl. apply list_lookup_insert_eq. by eapply lookup_lt_Some. }
    assert (w_suspense w1 !! b = Some bv1) as Hbv1.
    { subst w1. simpl. apply lookup_insert_eq. }
    exists w1. split; [done|]. split; [by rewrite Hbv1|]. split; [by rewrite Hbv1|].
    split; [by rewrite Hr1|].
    rewrite (read_pending_eq r c ctx b w1 ro1 bv1 Hasync Hc Hctx Hr1 Hnone Hb Hbv1).
    f_equal. subst w1 ro1 bv1. simpl.
    rewrite set_add_idem, list_insert_insert_eq, insert_insert_eq.
    by rewrite (assoc_L (∪)), (idemp_L (∪) {[r_id ro]}).
Qed.

(** X17. [load] with a producer that returns an object at once (no [then])
    keeps the value in the resource only: nothing is written to
    [ctx.resources] and no handler is attached to any promise.  A later read
    in async mode therefore still finds the id unresolved: it returns the
    value, and registers the id with the enclosing boundary, whose
    [completedCount] no handler will ever raise for it. *)
Theorem load_immediate_then_read (r : nat) (v : JSX) (w : World K) (c : nat)
    (ctx : HydrationContext) (ro : ResourceObj) (b : string)
    (bv : SuspenseContextValue K) :
  w_context w = Some c → w_ctxs w !! c = Some ctx → async ctx = true →
  w_robjs w !! r = Some ro → w_resources w !! r_id ro = None →
  is_object v = true →
  useContext (w_owner w) = Some b → w_suspense w !! b = Some bv →
  ∃ w1 w2,
    load r (ret (PValue v)) w = (Ok (TPromise (length (w_promises w))), w1)
    ∧ w_resources w1 = w_resources w
    ∧ w_promises w1 = (w_promises w ++ [Fulfilled (SVal v)])%list
    ∧ w_tasks w1 = w_tasks w
    ∧ read r w1 = (Ok v, w2)
    ∧ resources <$> w_suspense w2 !! b = Some ({[r_id ro]} ∪ resources bv)
    ∧ completedCount <$> w_suspense w2 !! b = Some (completedCount bv)
    ∧ w_promises w2 = w_promises w1 ∧ w_tasks w2 = w_tasks w.
Proof.
  intros Hc Hctx Hasync Hr Hnone Hobj Hb Hbv.
  assert (Hlt : r < length (w_robjs w)) by by eapply lookup_lt_Some.
  set (ro1 := mkResource (r_id ro) v (r_contexts ro) true).
  set (w1 := set_promises (w_promises w ++ [Fulfilled (SVal v)])
               (set_robjs (<[r := ro1]> (w_robjs w)) w)).
  assert (load r (ret (PValue v)) w = (Ok (TPromise (length (w_promises w))), w1)) as Hload.
  { unfold load.
    rewrite (bind_Ok _ _ _ _ _ (activeContext_eq w c ctx Hc Hctx)).
    rewrite Hasync. simpl.
    rewrite (bind_Ok _ _ _ _ _ (getResource_eq w r ro Hr)).
    rewrite bind_get, Hnone. unfold putResource at 1. rewrite bind_modify, bind_ret.
    rewrite Hobj.
    set (w0 := set_robjs _ w).
    assert (w_robjs w0 !! r = Some (mkResource (r_id ro) (r_value ro) (r_contexts ro) true))
      as Hr0 by (subst w0; simpl; by apply list_lookup_insert_eq).
    rewrite (bind_Ok _ _ _ _ _ (getResource_eq w0 r _ Hr0)).
    unfold putResource. rewrite bind_modify. unfold newPromise, bind, ret. simpl.
    subst w1 ro1. unfold set_promises, set_robjs. simpl.
    by rewrite list_insert_insert_eq. }
  assert (w_robjs w1 !! r = Some ro1) as Hr1.
  { subst w1. simpl. by apply list_lookup_insert_eq. }
  pose proof (read_pending_eq r c ctx b w1 ro1 bv Hasync Hc Hctx Hr1 Hnone Hb Hbv) as Hrd.
  eexists w1, _. split; [done|]. split; [done|]. split; [done|]. split; [done|].
  split; [exact Hrd|]. simpl. rewrite lookup_insert_eq. done.
Qed.

(** X18. Once the module promise of a lazy component has settled with a
    module, every call of the wrapper renders the module's default export:
    the call still takes an id from the active context, but registers nothing
    with a boundary and attaches no handler. *)
Theorem lazy_resolved_renders (l : nat) (k : K) (w w1 : World K) (c : nat)
    (ctx : HydrationContext) :
  onLazySet l (SMod k) w = (Ok tt, w1) →
  w_context w = Some c → w_ctxs w !! c = Some ctx →
  l_resolved <$> w_lazies w1 !! l = Some (Some k)
  ∧ lazyCall run l w1
    = run k (set_ctxs (<[c := mkContext (id ctx) (S (count ctx)) (writeResource ctx)
                               (async ctx) (streaming ctx)]> (w_ctxs w1)) w1).
Proof.
  intros Hset Hc Hctx. unfold onLazySet, bind, getLazy in Hset.
  destruct (w_lazies w !! l) as [lo|] eqn:Hl; [|done].
  injection Hset as <-. simpl.
  assert (Hlt : l < length (w_lazies w)) by by eapply lookup_lt_Some.
  rewrite list_lookup_insert_eq by done. split; [done|].
  unfold lazyCall.
  set (w1 := set_lazies _ w).
  rewrite (bind_Ok _ _ _ _ _ (activeContext_eq w1 c ctx Hc Hctx)).
  unfold bind at 1, postIncrement. change (w_ctxs w1) with (w_ctxs w).
  rewrite Hctx. unfold bind at 1, getLazy. simpl.
  by rewrite list_lookup_insert_eq.
Qed.

(** [runSuspense] in terms of the evaluation of the children. *)
Lemma runSuspense_eq (key : string) (cl : Completed K) w ctx :
  w_ctxs w !! c_ctx cl = Some ctx →
  runSuspense run key cl w
  = match run (children (c_props cl)) (enterBoundary key cl ctx w) with
    | (Ok r, w3) =>
        (Ok r, set_owner (w_owner w)
                 (set_context (Some (length (w_ctxs w))) (set_owner (c_owner cl) w3)))
    | (Throw e, w3) => (Throw e, set_owner (w_owner w) w3)
    | (OutOfFuel, w3) => (OutOfFuel, set_owner (w_owner w) w3)
    end.
Proof.
  intros Hctx. unfold runSuspense.
  rewrite (bind_Ok _ _ _ _ _ (getContext_eq w (c_ctx cl) ctx Hctx)).
  unfold newContext at 1. unfold bind at 1. unfold setHydrateContext.
  rewrite bind_modify. unfold runWithOwner, finally.
  set (w0 := set_owner _ _).
  set (copy := mkContext (id ctx) 0 (writeResource ctx) (async ctx) (streaming ctx)).
  assert (w_context w0 = Some (length (w_ctxs w))) as Hc0 by done.
  assert (w_ctxs w0 !! length (w_ctxs w) = Some copy) as Hctx0.
  { subst w0. simpl. by rewrite lookup_app_r, Nat.sub_diag. }
  unfold createComponent. rewrite Hc0. unfold bind at 1.
  rewrite (nextHydrateContext_Some w0 _ copy Hc0 Hctx0).
  unfold setHydrateContext. rewrite bind_modify.
  set (w1 := set_context _ _).
  unfold Provider, withFrame. unfold bind at 1. unfold bind at 1.
  unfold bind at 1. unfold modify at 1.
  set (w2 := set_owner (mkFrame (Some key) false :: w_owner w1) w1).
  change (enterBoundary key cl ctx w) with w2.
  unfold bind at 1. unfold bind at 1.
  destruct (run (children (c_props cl)) w2) as [[res|e|] w3]; reflexivity.
Qed.

(** X19. Every run of a boundary's children by [runSuspense], the first one
    and each re-run by [completed], evaluates the children in a world whose
    active context is a fresh one: its id is the boundary context's id
    followed by ["0."] and its count is [0], whatever the boundary context's
    own count is and whatever earlier runs allocated.  The nearest
    [SuspenseContext] there is this boundary; the contexts that existed
    before, the boundary's own among them, and the shared [resources] and
    [suspense] objects are as the caller had them.  [runSuspense] throws
    exactly when the children throw, and apart from [sharedConfig.context] and
    [Owner] it leaves the state as the children left it. *)
Theorem runSuspense_children_context (key : string) (cl : Completed K) (w : World K)
    (ctx : HydrationContext) :
  w_ctxs w !! c_ctx cl = Some ctx →
  let w1 := enterBoundary key cl ctx w in
  let child := S (length (w_ctxs w)) in
  w_context w1 = Some child
  ∧ w_ctxs w1 !! child
    = Some (mkContext (id ctx +:+ "0.") 0 (writeResource ctx) (async ctx) (streaming ctx))
  ∧ (∀ i, i < length (w_ctxs w) → w_ctxs w1 !! i = w_ctxs w !! i)
  ∧ useContext (w_owner w1) = Some key
  ∧ w_resources w1 = w_resources w
  ∧ w_suspense w1 = w_suspense w
  ∧ w_robjs w1 = w_robjs w
  ∧ w_registry w1 = w_registry w
  ∧ sameButSlots (snd (run (children (c_props cl)) w1)) (snd (runSuspense run key cl w))
  ∧ (∀ e, fst (runSuspense run key cl w) = Throw e
          ↔ fst (run (children (c_props cl)) w1) = Throw e)
  ∧ (fst (runSuspense run key cl w) = OutOfFuel
     ↔ fst (run (children (c_props cl)) w1) = OutOfFuel).
Proof.
  intros Hctx w1 child.
  split.
  { subst w1 child. unfold enterBoundary, enterChild. simpl.
    by rewrite length_app, Nat.add_1_r. }
  split.
  { subst w1 child. unfold enterBoundary, enterChild. simpl.
    rewrite lookup_app_r by (rewrite length_insert, length_app; simpl; lia).
    by rewrite length_insert, length_app, Nat.add_1_r, Nat.sub_diag. }
  split.
  { intros i Hi. subst w1. unfold enterBoundary, enterChild. simpl.
    rewrite lookup_app_l by (rewrite length_insert, length_app; simpl; lia).
    rewrite list_lookup_insert_ne by lia.
    by rewrite lookup_app_l. }
  split; [reflexivity|]. split; [reflexivity|]. split; [reflexivity|].
  split; [reflexivity|]. split; [reflexivity|].
  rewrite (runSuspense_eq key cl w ctx Hctx). fold w1.
  destruct (run (children (c_props cl)) w1) as [[res|e|] w3]; simpl.
  - split; [by repeat split|]. split; [|done]. intros e. by split.
  - split; [by repeat split|]. split; [|done]. intros e'. by split.
  - split; [by repeat split|]. split; [|done]. intros e. by split.
Qed.

End Resources.

(** ** The leftmost match, characterised *)

Section Leftmost.

Implicit Types (s p i r : string).

Lemma angles_cons_lt s : angles (String "<" s) = S (angles s).
Proof. reflexivity. Qed.

(** After text without a token, a token is the leftmost match, whatever the
    text ends in. *)
Lemma find_token_after p i r :
  find_token p = None → i ≠ "" → Str.all is_idc i = true →
  find_token (p +:+ token i +:+ r) = Some (p, i, r).
Proof.
  intros Hp Hi Hall. induction p as [|a p IH].
  - rewrite Str.app_nil_l. by apply find_token_token.
  - rewrite find_token_cons in Hp.
    destruct (match_here (String a p)) as [[i' r']|] eqn:E; [done|].
    destruct (find_token p) as [[[p' i'] r']|] eqn:E'; [done|].
    rewrite Str.app_cons, find_token_cons, <- Str.app_cons, (IH eq_refl).
    destruct (match_here (String a p +:+ token i +:+ r)) as [[j r0]|] eqn:E0; [|done].
    exfalso. apply match_here_spec in E0 as (Hj & Hjall & E0).
    apply (app_eq_app (String a p) (token i +:+ r) (token j) r0) in E0
      as [(x & Hx & _)|(x & Hx & Htok & Hrest)].
    + assert (match_here (String a p) = Some (j, x)) by by apply match_here_spec.
      congruence.
    + destruct x as [|b x]; [done|].
      unfold token in Hrest. rewrite !Str.app_cons in Hrest. injection Hrest as <- _.
      pose proof Htok as Ha. unfold token in Ha. rewrite !Str.app_cons in Ha.
      injection Ha as <- _.
      apply (f_equal angles) in Htok.
      rewrite angles_token, angles_app, !angles_cons_lt in Htok by done. lia.
Qed.

(** X9. [source.match(SUSPENSE_REPLACE)] returns the text before the match,
    the captured id and the text after the match exactly when the source is
    that text, then ["<#"], the id, ["#>"], then the rest, the id is a
    non-empty run of digits and dots, and the text before contains no match
    itself. *)
Theorem find_token_iff (s p i r : string) :
  find_token s = Some (p, i, r) ↔
  s = p +:+ "<#" +:+ i +:+ "#>" +:+ r
  ∧ i ≠ "" ∧ Str.all is_idc i = true ∧ find_token p = None.
Proof.
  split.
  - intros E. destruct (find_token_sound s p i r E) as (-> & Hi & Hall).
    split; [by unfold token; rewrite !Str.app_assoc|]. split; [done|].
    split; [done|]. by eapply find_token_before.
  - intros (-> & Hi & Hall & Hp).
    rewrite <- (find_token_after p i r Hp Hi Hall). unfold token.
    by rewrite !Str.app_assoc.
Qed.

End Leftmost.

Lemma read_registers_once_witness :
  ∃ w1, read 0 insideBoundary = (Ok JNull, w1)
        ∧ resources <$> w_suspense w1 !! "0" = Some ({["0.0"]} ∪ ∅)
        ∧ read 0 w1 = (Ok JNull, w1).
Proof.
  destruct (read_registers_once 0 insideBoundary 0 (mkContext "0." 1 false true false)
              (mkResource "0.0" JNull [] false) eq_refl eq_refl eq_refl eq_refl)
    as [_ H].
  destruct (H eq_refl "0" (mkBoundary 0 ∅ (mkCompleted 0 [] (mkProps "wait" (CText "a"))))
              eq_refl eq_refl) as (w1 & H1 & H2 & _ & _ & H3).
  exists w1. split; [exact H1|]. split; [exact H2|exact H3].
Defined.

Lemma load_immediate_then_read_witness :
  ∃ w1 w2,
    load 0 (ret (PValue (JObj (JStr "hi")))) insideBoundary = (Ok (TPromise 1), w1)
    ∧ read 0 w1 = (Ok (JObj (JStr "hi")), w2)
    ∧ resources <$> w_suspense w2 !! "0" = Some ({["0.0"]} ∪ ∅)
    ∧ w_tasks w2 = [].
Proof.
  destruct (load_immediate_then_read 0 (JObj (JStr "hi")) insideBoundary 0
              (mkContext "0." 1 false true false) (mkResource "0.0" JNull [] false)
              "0" (mkBoundary 0 ∅ (mkCompleted 0 [] (mkProps "wait" (CText "a"))))
              eq_refl eq_refl eq_refl eq_refl eq_refl eq_refl eq_refl eq_refl)
    as (w1 & w2 & H1 & _ & _ & _ & H2 & H3 & _ & _ & H4).
  exists w1, w2. split; [exact H1|]. split; [exact H2|]. split; [exact H3|exact H4].
Defined.

Lemma lazy_resolved_renders_witness :
  ∃ w1, onLazySet 0 (SMod (CText "hi")) insideBoundary = (Ok tt, w1)
        ∧ fst (lazyCall (exec 2) 0 w1) = Ok (JStr "hi")
        ∧ w_suspense (snd (lazyCall (exec 2) 0 w1)) = w_suspense insideBoundary.
Proof.
  set (w1 := snd (onLazySet 0 (SMod (CText "hi")) insideBoundary)).
  assert (onLazySet 0 (SMod (CText "hi")) insideBoundary = (Ok tt, w1)) as H1
    by reflexivity.
  destruct (lazy_resolved_renders (exec 2) 0 (CText "hi") insideBoundary w1 0
              (mkContext "0." 1 false true false) H1 eq_refl eq_refl) as [_ H2].
  exists w1. split; [exact H1|]. rewrite H2. split; reflexivity.
Defined.

Lemma runSuspense_children_context_witness :
  let cl := mkCompleted 0 [] (mkProps "wait" (CText "a")) in
  let w1 := enterBoundary "0" cl (mkContext "0." 1 false true false) insideBoundary in
  w_ctxs insideBoundary !! 0 = Some (mkContext "0." 1 false true false)
  ∧ w_ctxs w1 !! S (length (w_ctxs insideBoundary))
    = Some (mkContext "0.0." 0 false true false)
  ∧ useContext (w_owner w1) = Some "0"
  ∧ sameButSlots (snd (exec 2 (CText "a") w1))
      (snd (runSuspense (exec 2) "0" cl insideBoundary)).
Proof.
  intros cl w1.
  destruct (runSuspense_children_context (exec 2) "0" cl insideBoundary
              (mkContext "0." 1 false true false) eq_refl)
    as (_ & H2 & _ & H3 & _ & _ & _ & _ & H4 & _).
  split; [reflexivity|]. split; [exact H2|]. split; [exact H3|exact H4].
Defined.

Lemma Switch_first_truthy_witness :
  Switch (K := Code) (Some "none")
    (ManyConditions [mkMatch (JBool false) (BValue (JStr "a"));
                     Match (mkMatch (JNum 2) (BValue (JStr "b")));
                     mkMatch (JBool true) (BValue (JStr "c"))])
  = ret (JStr "b").
Proof.
  destruct (Switch_first_truthy (K := Code) (Some "none") []
              (mkMatch (JNum 2) (BValue (JStr "b")))) as (_ & _ & H).
  apply (H [mkMatch (JBool false) (BValue (JStr "a"))]
           [mkMatch (JBool true) (BValue (JStr "c"))]);
    [repeat constructor|reflexivity].
Defined.

Lemma splitProps_assignProps_witness :
  let props : gmap string nat := {["a" := 1; "b" := 2; "c" := 3]} in
  assignProps ∅ (splitProps {["toString"]} 0 props [["a"]; ["b"; "zz"; "a"]]) = props.
Proof.
  intros props.
  apply (splitProps_assignProps {["toString"]} 0 props [["a"]; ["b"; "zz"; "a"]]).
  intros k key Hk Hkey Hp. apply elem_of_singleton in Hp. subst key.
  repeat (apply elem_of_cons in Hk as [->|Hk];
          [repeat (apply elem_of_cons in Hkey as [Hkey|Hkey]; [discriminate Hkey|]);
           by apply elem_of_nil in Hkey|]).
  by apply elem_of_nil in Hk.
Defined.

